(** * tools/select_top10.py: the issue ranker

    A shallow embedding of [tools/select_top10.py] and the properties of its
    selection policy: normalisation of priority / impact / estimate, the
    four-component sort key, the stable sort, the truncation to the first
    [limit] records, and the command-line wrapper around them.

    Conventions of the embedding.
    - A value produced by [yaml.safe_load] is a [yaml] tree (null, bool, int,
      str, list, dict); floats, dates and binary values are left out.  A dict
      is an association list in insertion order, its keys are values
      themselves, and a lookup by a string key finds the entry whose key is
      that string.
    - Strings are Stdlib strings read as ASCII text; on these [str.upper] and
      [str.lower] change the letters a-z / A-Z only.
    - A Python call that can raise returns a [result]: [Ok v] or [Raise e].
    - The file system, standard output and standard error form a [world]
      that is threaded through the functions that touch them.  The file
      system is a tree of directories and regular files without links, kept
      as a map from locations (the names on the way from the root directory)
      to nodes, together with the working directory.  A regular file holds
      either a YAML document or text that [yaml.safe_load] rejects.
    - A path is what [pathlib.Path] makes of a string on a POSIX system; the
      system resolves it, component by component, to a location.  Permissions
      and errors of the device are left out. *)

From Stdlib Require Import Ascii.
From stdpp Require Import base tactics option list numbers strings gmap sorting
  pretty.

#[local] Set Warnings "-register-all".
Local Open Scope Z_scope.

(** ** Values loaded from YAML *)

Inductive yaml : Type :=
  | YNull
  | YBool (b : bool)
  | YInt (n : Z)
  | YStr (s : string)
  | YList (items : list yaml)
  | YMap (entries : list (yaml * yaml)).

(** Python's [isinstance(v, str)]. *)
Definition is_str (v : yaml) : bool :=
  match v with YStr _ => true | _ => false end.

(** Truth value of an object, as [bool(v)] computes it. *)
Definition truthy (v : yaml) : bool :=
  match v with
  | YNull => false
  | YBool b => b
  | YInt n => negb (n =? 0)
  | YStr s => negb (String.eqb s "")
  | YList items => match items with [] => false | _ => true end
  | YMap entries => match entries with [] => false | _ => true end
  end.

(** ** Exceptions and results *)

Inductive exn : Type :=
  | SystemExit (msg : string)
  | AttributeError
  | TypeError
  | IndexError
  | FileNotFoundError
  | FileExistsError
  | IsADirectoryError
  | NotADirectoryError
  | YAMLError.

Inductive result (A : Type) : Type :=
  | Ok (a : A)
  | Raise (e : exn).
Arguments Ok {A} a.
Arguments Raise {A} e.

#[global] Instance result_ret : MRet result := fun A a => Ok a.
#[global] Instance result_bind : MBind result := fun A B f m =>
  match m with
  | Ok a => f a
  | Raise e => Raise e
  end.
#[global] Instance result_fmap : FMap result := fun A B f m =>
  match m with
  | Ok a => Ok (f a)
  | Raise e => Raise e
  end.

(** ** Strings *)

Module Str.

Definition upper_char (c : ascii) : ascii :=
  let n := N_of_ascii c in
  if ((97 <=? n) && (n <=? 122))%N then ascii_of_N (n - 32) else c.

Definition lower_char (c : ascii) : ascii :=
  let n := N_of_ascii c in
  if ((65 <=? n) && (n <=? 90))%N then ascii_of_N (n + 32) else c.

Fixpoint map_chars (f : ascii -> ascii) (s : string) : string :=
  match s with
  | EmptyString => EmptyString
  | String c s' => String (f c) (map_chars f s')
  end.

(** [s.upper()] and [s.lower()]. *)
Definition upper : string -> string := map_chars upper_char.
Definition lower : string -> string := map_chars lower_char.

(** [s.startswith(p)]. *)
Fixpoint startswith (s p : string) : bool :=
  match p, s with
  | EmptyString, _ => true
  | String _ _, EmptyString => false
  | String a p', String b s' => if Ascii.eqb a b then startswith s' p' else false
  end.

(** [s.split(sep, 1)] for a one-character separator: the text before the
    first [sep] and the text after it, or [s] alone when it has none. *)
Fixpoint split1 (sep : ascii) (s : string) : list string :=
  match s with
  | EmptyString => [EmptyString]
  | String c s' =>
      if Ascii.eqb c sep then [EmptyString; s']
      else match split1 sep s' with
           | h :: t => String c h :: t
           | [] => [String c EmptyString]
           end
  end.

(** [s.split(sep)] for a one-character separator: the texts between the
    occurrences of [sep]. *)
Fixpoint split (sep : ascii) (s : string) : list string :=
  match s with
  | EmptyString => [EmptyString]
  | String c s' =>
      if Ascii.eqb c sep then EmptyString :: split sep s'
      else match split sep s' with
           | h :: t => String c h :: t
           | [] => [String c EmptyString]
           end
  end.

(** [c in s]. *)
Fixpoint mem_char (c : ascii) (s : string) : bool :=
  match s with
  | EmptyString => false
  | String c' s' => Ascii.eqb c' c || mem_char c s'
  end.

(** The one-character strings a [for] loop over [s] goes through. *)
Fixpoint chars (s : string) : list string :=
  match s with
  | EmptyString => []
  | String c s' => String c EmptyString :: chars s'
  end.

End Str.

(** ** Dictionaries *)

(** [key in d] and [d.get(key)] for a string [key]. *)
Fixpoint dict_get (d : list (yaml * yaml)) (key : string) : option yaml :=
  match d with
  | [] => None
  | (YStr k, v) :: d' => if String.eqb k key then Some v else dict_get d' key
  | _ :: d' => dict_get d' key
  end.

(** [obj.get(key)]: only a dict has the method. *)
Definition get (obj : yaml) (key : string) : result (option yaml) :=
  match obj with
  | YMap d => Ok (dict_get d key)
  | _ => Raise AttributeError
  end.

(** [iter(v)], the values a [for] loop goes through. *)
Definition py_iter (v : yaml) : result (list yaml) :=
  match v with
  | YList items => Ok items
  | YStr s => Ok (YStr <$> Str.chars s)
  | YMap entries => Ok (fst <$> entries)
  | YNull | YBool _ | YInt _ => Raise TypeError
  end.

(** [l[i]] for a list, with a non-negative [i]. *)
Definition index {A} (l : list A) (i : nat) : result A :=
  match l !! i with
  | Some a => Ok a
  | None => Raise IndexError
  end.

(** ** The ranker: constants *)

Definition DEFAULT_PRIORITY : string := "P3".
Definition DEFAULT_IMPACT : string := "Low".
Definition DEFAULT_ESTIMATE : string := "M".

Definition PRIORITY_ORDER : list (string * Z) := [("P1", 3); ("P2", 2); ("P3", 1)].
Definition IMPACT_ORDER : list (string * Z) := [("HIGH", 3); ("MEDIUM", 2); ("LOW", 1)].
Definition ESTIMATE_ORDER : list (string * Z) :=
  [("XS", 1); ("S", 2); ("M", 3); ("L", 4); ("XL", 5)].

(** [table.get(key)] on one of the three tables. *)
Fixpoint order_get (table : list (string * Z)) (key : string) : option Z :=
  match table with
  | [] => None
  | (k, v) :: table' => if String.eqb k key then Some v else order_get table' key
  end.

(** [table.get(key, table[dflt])]; the default entry is present in each of the
    three tables, an absent one would be a [KeyError]. *)
Definition order_score (table : list (string * Z)) (key dflt : string) : Z :=
  match order_get table key with
  | Some v => v
  | None => default 0 (order_get table dflt)
  end.

(** ** The ranker: normalisation *)

(** [issue.get("labels", []) or []]. *)
Definition labels_of (issue : yaml) : result yaml :=
  labels ← get issue "labels";
  match labels with
  | Some v => if truthy v then Ok v else Ok (YList [])
  | None => Ok (YList [])
  end.

(** The [for label in ...] loop of [_normalise_priority] and
    [_normalise_impact]: [Ok (Some v)] when the loop returns [v], [Ok None]
    when it runs to its end. *)
Fixpoint scan_labels (prefix : string) (labels : list yaml) : result (option string) :=
  match labels with
  | [] => Ok None
  | YStr label :: rest =>
      if Str.startswith (Str.lower label) prefix
      then tail ← index (Str.split1 ":" label) 1; Ok (Some (Str.upper tail))
      else scan_labels prefix rest
  | _ :: rest => scan_labels prefix rest
  end.

Definition _normalise_priority (issue : yaml) : result string :=
  priority ← get issue "priority";
  match priority with
  | Some (YStr s) => Ok (Str.upper s)
  | _ =>
      labels ← labels_of issue;
      items ← py_iter labels;
      found ← scan_labels "priority:" items;
      Ok (default DEFAULT_PRIORITY found)
  end.

Definition _normalise_impact (issue : yaml) : result string :=
  impact ← get issue "impact";
  match impact with
  | Some (YStr s) => Ok (Str.upper s)
  | _ =>
      labels ← labels_of issue;
      items ← py_iter labels;
      found ← scan_labels "impact:" items;
      Ok (default (Str.upper DEFAULT_IMPACT) found)
  end.

Definition _normalise_estimate (issue : yaml) : result string :=
  estimate ← get issue "estimate";
  match estimate with
  | Some (YStr s) => Ok (Str.upper s)
  | _ => Ok DEFAULT_ESTIMATE
  end.

(** ** The ranker: sort key and sort *)

Definition sort_key : Type := Z * Z * Z * Z.

Definition _sort_key (issue : yaml) (index : Z) : result sort_key :=
  priority ← _normalise_priority issue;
  impact ← _normalise_impact issue;
  estimate ← _normalise_estimate issue;
  let priority_score := order_score PRIORITY_ORDER priority DEFAULT_PRIORITY in
  let impact_score := order_score IMPACT_ORDER impact (Str.upper DEFAULT_IMPACT) in
  let estimate_score := order_score ESTIMATE_ORDER estimate DEFAULT_ESTIMATE in
  Ok (- priority_score, - impact_score, estimate_score, index).

(** [a < b] on two keys, as Python compares tuples: the first component in
    which they differ decides. *)
Definition key_ltb (a b : sort_key) : bool :=
  let '(a1, a2, a3, a4) := a in
  let '(b1, b2, b3, b4) := b in
  if negb (a1 =? b1) then a1 <? b1
  else if negb (a2 =? b2) then a2 <? b2
  else if negb (a3 =? b3) then a3 <? b3
  else a4 <? b4.

(** [list(enumerate(l))], counting from [start]. *)
Fixpoint enumerate_from {A} (start : nat) (l : list A) : list (nat * A) :=
  match l with
  | [] => []
  | x :: l' => (start, x) :: enumerate_from (S start) l'
  end.
Definition enumerate {A} (l : list A) : list (nat * A) := enumerate_from 0 l.

Section sorted.
Context {A : Type}.

(** [sorted] computes the key of every item first, in order, and an
    exception raised by one of them ends the call. *)
Fixpoint decorate (key : A -> result sort_key) (l : list A)
  : result (list (sort_key * A)) :=
  match l with
  | [] => Ok []
  | x :: l' => k ← key x; rest ← decorate key l'; Ok ((k, x) :: rest)
  end.

(** [x] goes in front of the first item that is not smaller than it. *)
Fixpoint insert_key (x : sort_key * A) (l : list (sort_key * A))
  : list (sort_key * A) :=
  match l with
  | [] => [x]
  | y :: l' => if key_ltb y.1 x.1 then y :: insert_key x l' else x :: l
  end.

Fixpoint sort_keys (l : list (sort_key * A)) : list (sort_key * A) :=
  match l with
  | [] => []
  | x :: l' => insert_key x (sort_keys l')
  end.

(** [sorted(l, key=key)]: a stable sort that compares keys with [<] only.
    Every stable sort returns the same list; this one is by insertion. *)
Definition sorted (key : A -> result sort_key) (l : list A) : result (list A) :=
  keyed ← decorate key l; Ok (sort_keys keyed).*2.
End sorted.

(** [l[:stop]]. *)
Definition slice_to {A} (l : list A) (stop : Z) : list A :=
  if stop <? 0 then take (Z.to_nat (Z.max 0 (Z.of_nat (length l) + stop))) l
  else take (Z.to_nat stop) l.

(** The [key] function of line 82: the key of an enumerated item. *)
Definition item_key (item : nat * yaml) : result sort_key :=
  _sort_key item.2 (Z.of_nat item.1).

(** Lines 80-83 of [select_top_issues]: the sort of the enumerated records,
    before the indices are dropped. *)
Definition sorted_enumerated (issues : list yaml) : result (list (nat * yaml)) :=
  sorted item_key (enumerate issues).

(** The list [sorted_issues] of line 81. *)
Definition sorted_issues (issues : list yaml) : result (list yaml) :=
  ranked ← sorted_enumerated issues; Ok ranked.*2.

(** Lines 73-86 of [select_top_issues]: from the loaded document to the
    document that is dumped. *)
Definition select_document (data : yaml) (limit : Z) : result yaml :=
  match data with
  | YMap d =>
      match dict_get d "issues" with
      | None => Raise (SystemExit "Input YAML must contain a top-level 'issues' sequence")
      | Some (YList issues) =>
          ranked ← sorted_issues issues;
          let limited := slice_to ranked limit in
          Ok (YMap [(YStr "issues", YList limited)])
      | Some _ => Raise (SystemExit "'issues' must be a list")
      end
  | _ => Raise (SystemExit "Input YAML must contain a top-level 'issues' sequence")
  end.

(** ** Paths *)

(** [pathlib.Path] on a POSIX system.  A path is a root (empty, [/] or [//])
    and the components after it: empty components and [.] are dropped when
    the path is made, [..] is kept. *)
Module Pathlib.

Record path : Type := MkPath {
  root : string;
  parts : list string;
}.

#[global] Instance path_eq_dec : EqDecision path.
Proof. solve_decision. Defined.

(** The root of a path given as text: two leading slashes are kept, one or
    three and more are one. *)
Definition splitroot (s : string) : string :=
  if Str.startswith s "/" then
    if Str.startswith s "//" && negb (Str.startswith s "///") then "//" else "/"
  else "".

(** [Path(s)]. *)
Definition Path (s : string) : path :=
  MkPath (splitroot s) (filter (λ x, x ≠ "" ∧ x ≠ ".") (Str.split "/" s)).

(** [str(p)]. *)
Definition str (p : Pathlib.path) : string :=
  match root p, parts p with
  | "", [] => "."
  | r, ps => r +:+ String.concat "/" ps
  end.

(** [p.parent]: the path without its last component; a path without
    components is its own parent. *)
Definition parent (p : Pathlib.path) : path :=
  MkPath (root p) (removelast (parts p)).

End Pathlib.

(** ** Files and streams *)

Inductive file : Type :=
  | Document (doc : yaml)
  | NotYaml.

Inductive node : Type :=
  | Directory
  | Regular (f : file).

(** The place of a node: the names on the way to it from the root
    directory. *)
Definition location : Type := list string.

Record world : Type := World {
  cwd : location;
  nodes : gmap location node;
  stdout : list string;
  stderr : list string;
}.

Definition IO (A : Type) : Type := world → result A * world.

Definition set_node (loc : location) (n : node) (w : world) : world :=
  World (cwd w) (<[loc := n]> (nodes w)) (stdout w) (stderr w).
Definition print_out (line : string) (w : world) : world :=
  World (cwd w) (nodes w) (stdout w ++ [line]) (stderr w).
Definition print_err (line : string) (w : world) : world :=
  World (cwd w) (nodes w) (stdout w) (stderr w ++ [line]).

(** The regular files of the world. *)
Definition regular (n : node) : option file :=
  match n with
  | Regular f => Some f
  | Directory => None
  end.
Definition files (w : world) : gmap location file := omap regular (nodes w).

(** Where a path starts: the working directory, or the root directory when
    the path has a root. *)
Definition anchor (w : world) (p : Pathlib.path) : location :=
  if String.eqb (Pathlib.root p) "" then cwd w else [].

(** One component of a path, looked up in the directory reached so far:
    [..] leads to the directory above (the root directory is above itself),
    a name to the entry of that name, which need not exist. *)
Definition step (w : world) (dir : result location) (name : string)
  : result location :=
  dir ≫= λ loc,
    match nodes w !! loc with
    | Some Directory =>
        Ok (if String.eqb name ".." then removelast loc else loc ++ [name])
    | Some (Regular _) => Raise NotADirectoryError
    | None => Raise FileNotFoundError
    end.

(** The location that the system finds for a path. *)
Definition resolve (w : world) (p : Pathlib.path) : result location :=
  fold_left (step w) (Pathlib.parts p) (Ok (anchor w p)).

(** [os.stat(p)]. *)
Definition stat (w : world) (p : Pathlib.path) : result node :=
  resolve w p ≫= λ loc,
    match nodes w !! loc with
    | Some n => Ok n
    | None => Raise FileNotFoundError
    end.

(** [p.exists()] and [p.is_dir()]: false when [os.stat] fails. *)
Definition path_exists (p : Pathlib.path) (w : world) : bool :=
  match stat w p with
  | Ok _ => true
  | Raise _ => false
  end.
Definition is_dir (p : Pathlib.path) (w : world) : bool :=
  match stat w p with
  | Ok Directory => true
  | _ => false
  end.

(** The regular file that a path leads to. *)
Definition file_at (w : world) (p : Pathlib.path) : option file :=
  match stat w p with
  | Ok (Regular f) => Some f
  | _ => None
  end.

(** [yaml.safe_load(source.read_text(encoding="utf-8"))]. *)
Definition load (source : Pathlib.path) (w : world) : result yaml :=
  stat w source ≫= λ n,
    match n with
    | Directory => Raise IsADirectoryError
    | Regular NotYaml => Raise YAMLError
    | Regular (Document data) => Ok data
    end.

(** [p.write_text(...)]: the file is made, or replaced, in the directory
    that the path leads to. *)
Definition write_text (p : Pathlib.path) (f : file) : IO unit := λ w,
  match resolve w p with
  | Raise e => (Raise e, w)
  | Ok loc =>
      match nodes w !! loc with
      | Some Directory => (Raise IsADirectoryError, w)
      | _ => (Ok (), set_node loc (Regular f) w)
      end
  end.

(** [os.mkdir(p)]. *)
Definition os_mkdir (p : Pathlib.path) : IO unit := λ w,
  match resolve w p with
  | Raise e => (Raise e, w)
  | Ok loc =>
      match nodes w !! loc with
      | Some _ => (Raise FileExistsError, w)
      | None => (Ok (), set_node loc Directory w)
      end
  end.

(** [p.mkdir(exist_ok=True)]: an error of [os.mkdir] is let through unless
    the path is a directory; a missing parent is an error. *)
Definition mkdir_exist_ok (p : Pathlib.path) : IO unit := λ w,
  match os_mkdir p w with
  | (Ok _, w') => (Ok (), w')
  | (Raise FileNotFoundError, _) => (Raise FileNotFoundError, w)
  | (Raise e, _) => if is_dir p w then (Ok (), w) else (Raise e, w)
  end.

(** [p.mkdir(parents=True, exist_ok=True)]: when the parent is missing it is
    made in the same way, and [p] after it, unless [p] is its own parent.
    The recursion is on the number of components of [p]: a path without
    components is its own parent, and the parent of any other has one
    component less (see [mkdir_unfold]). *)
Fixpoint mkdir_parents (fuel : nat) (p : Pathlib.path) (w : world) : result unit * world :=
  match os_mkdir p w with
  | (Ok _, w') => (Ok (), w')
  | (Raise FileNotFoundError, _) =>
      match fuel with
      | O => (Raise FileNotFoundError, w)
      | S fuel' =>
          match mkdir_parents fuel' (Pathlib.parent p) w with
          | (Ok _, w') => mkdir_exist_ok p w'
          | (Raise e, w') => (Raise e, w')
          end
      end
  | (Raise e, _) => if is_dir p w then (Ok (), w) else (Raise e, w)
  end.
Definition mkdir (p : Pathlib.path) : IO unit :=
  mkdir_parents (length (Pathlib.parts p)) p.

(** The default of the parameter [limit] of [select_top_issues]. *)
Definition default_limit : Z := 10.

(** [select_top_issues(source, target, limit)]: nothing is written unless
    the document was loaded and the selection made. *)
Definition select_top_issues (source target : Pathlib.path) (limit : Z) : IO unit := λ w,
  match load source w ≫= (fun data => select_document data limit) with
  | Raise e => (Raise e, w)
  | Ok doc => write_text target (Document doc) w
  end.

Definition usage : string :=
  "Usage: python tools/select_top10.py <input_yaml> <output_yaml>".

(** [main(argv)], which calls [select_top_issues] without a limit. *)
Definition main (argv : list string) : IO Z := λ w,
  match argv with
  | [_; input_yaml; output_yaml] =>
      let source := Pathlib.Path input_yaml in
      let target := Pathlib.Path output_yaml in
      if negb (path_exists source w)
      then (Ok 1, print_err ("Input file not found: " +:+ Pathlib.str source) w)
      else
        match mkdir (Pathlib.parent target) w with
        | (Raise e, w') => (Raise e, w')
        | (Ok _, w') =>
            match select_top_issues source target default_limit w' with
            | (Raise e, w'') => (Raise e, w'')
            | (Ok _, w'') =>
                (Ok 0, print_out ("Top issues written to " +:+ Pathlib.str target) w'')
            end
        end
  | _ => (Ok 1, print_err usage w)
  end.

(** The line that stands for the traceback of an exception nobody
    catches. *)
Definition traceback : string := "Traceback (most recent call last):".

(** What the interpreter prints when an exception ends the script: the
    message of [SystemExit], the traceback of any other. *)
Definition report (e : exn) : string :=
  match e with
  | SystemExit msg => msg
  | _ => traceback
  end.

(** [raise SystemExit(main(sys.argv))] at the foot of the script: the exit
    status of the process.  [SystemExit] with a string prints it on standard
    error and exits with status 1, as does an exception nobody catches (which
    prints its traceback). *)
Definition script (argv : list string) (w : world) : Z * world :=
  match main argv w with
  | (Ok status, w') => (status, w')
  | (Raise e, w') => (1, print_err (report e) w')
  end.

(** ** Records of the backlog *)

(** What may stand under [labels]: a value that counts as false (null,
    false, 0, an empty string, list or mapping) or one that a [for] loop can
    go through (a list, a string, a mapping). *)
Definition scannable (v : yaml) : bool :=
  negb (truthy v) ||
  match v with
  | YList _ | YStr _ | YMap _ => true
  | _ => false
  end.

(** A record of the backlog: a mapping whose [labels], when the key is
    present, is [scannable].  The records of the data model, where [labels]
    is a sequence of strings, are among them. *)
Definition is_record (v : yaml) : bool :=
  match v with
  | YMap d =>
      match dict_get d "labels" with
      | None => true
      | Some labels => scannable labels
      end
  | _ => false
  end.

(** The values that the scan of a record goes through. *)
Definition record_labels (d : list (yaml * yaml)) : list yaml :=
  match labels_of (YMap d) ≫= py_iter with
  | Ok items => items
  | Raise _ => []
  end.

(** The first three components of the key of an issue; they are the same
    at every index. *)
Definition rank_of (issue : yaml) : Z * Z * Z :=
  match _sort_key issue 0 with
  | Ok k => k.1
  | Raise _ => (0, 0, 0)
  end.

(** A label that the scan for [prefix] stops at: a string whose lower-cased
    form starts with [prefix]. *)
Definition label_matches (prefix : string) (v : yaml) : bool :=
  match v with
  | YStr label => Str.startswith (Str.lower label) prefix
  | _ => false
  end.

(** ** Scores as the specification gives them *)

Module Spec.

(** Priority: P1 is 3, P2 is 2, P3 is 1, anything else is 1. *)
Definition priority_score (p : string) : Z :=
  if String.eqb p "P1" then 3
  else if String.eqb p "P2" then 2
  else if String.eqb p "P3" then 1
  else 1.

(** Impact: HIGH is 3, MEDIUM is 2, LOW is 1, anything else is 1. *)
Definition impact_score (i : string) : Z :=
  if String.eqb i "HIGH" then 3
  else if String.eqb i "MEDIUM" then 2
  else if String.eqb i "LOW" then 1
  else 1.

(** Estimate: XS is 1, S is 2, M is 3, L is 4, XL is 5, anything else is 3. *)
Definition estimate_score (e : string) : Z :=
  if String.eqb e "XS" then 1
  else if String.eqb e "S" then 2
  else if String.eqb e "M" then 3
  else if String.eqb e "L" then 4
  else if String.eqb e "XL" then 5
  else 3.

End Spec.

(** ** A backlog to run the tool on *)

Module Example.

Definition issue1 : yaml := YMap [(YStr "id", YInt 1); (YStr "priority", YStr "P3")].
Definition issue2 : yaml := YMap [(YStr "id", YInt 2); (YStr "priority", YStr "P1")].
Definition issue3 : yaml :=
  YMap [(YStr "id", YInt 3); (YStr "priority", YStr "P1"); (YStr "impact", YStr "HIGH")].

(** A record that takes its priority and impact from its labels; the list
    also holds a null and a number. *)
Definition issue4 : yaml :=
  YMap [(YStr "id", YInt 4); (YStr "title", YStr "Login fails");
        (YStr "labels",
         YList [YNull; YInt 7; YStr "bug"; YStr "Priority:p2"; YStr "impact:Medium";
                YStr "priority:P1"]);
        (YStr "estimate", YStr "xs")].

Definition issues : list yaml := [issue1; issue2; issue3].

Definition backlog : yaml := YMap [(YStr "issues", YList issues)].

(** A checkout of the repository at [/repo], which is the working
    directory, with the backlog in [backlog/issues.yaml]. *)
Definition checkout (doc : yaml) : gmap location node :=
  {[ [] := Directory;
     ["repo"] := Directory;
     ["repo"; "backlog"] := Directory;
     ["repo"; "backlog"; "issues.yaml"] := Regular (Document doc) ]}.

Definition world0 : world := World ["repo"] (checkout backlog) [] [].

(** The input of the last scenario of the specification: an empty mapping. *)
Definition world_malformed : world := World ["repo"] (checkout (YMap [])) [] [].

End Example.

(** ** Entries that can be sorted *)

(** Whether the field [key] of a mapping is a string. *)
Definition field_is_str (d : list (yaml * yaml)) (key : string) : bool :=
  match dict_get d key with
  | Some (YStr _) => true
  | _ => false
  end.

(** An entry of [issues] whose key can be computed: a mapping whose [labels]
    can be scanned, or are never looked at because [priority] and [impact]
    are strings both. *)
Definition sortable (v : yaml) : bool :=
  match v with
  | YMap d => is_record v || (field_is_str d "priority" && field_is_str d "impact")
  | _ => false
  end.

(** ** Letter case *)

(** Two field values (as [dict.get] returns them) that are the same, or are
    two strings that differ in the case of their letters only. *)
Definition same_ignoring_case (a b : option yaml) : Prop :=
  a = b ∨
  ∃ s s', a = Some (YStr s) ∧ b = Some (YStr s') ∧ Str.lower s = Str.lower s'.

(** ** Worlds and paths of the properties *)

(** [OSError] and its subclasses. *)
Definition os_error (e : exn) : bool :=
  match e with
  | FileNotFoundError | FileExistsError | IsADirectoryError | NotADirectoryError => true
  | _ => false
  end.

(** [w'] is [w] with more directories: the same regular files, streams and
    working directory, and every directory of [w]. *)
Definition grows (w w' : world) : Prop :=
  cwd w' = cwd w ∧ stdout w' = stdout w ∧ stderr w' = stderr w ∧
  (∀ loc n, nodes w !! loc = Some n → nodes w' !! loc = Some n) ∧
  (∀ loc f, nodes w' !! loc = Some (Regular f) → nodes w !! loc = Some (Regular f)).

(** A path that is spelled without [..]. *)
Definition plain (p : Pathlib.path) : bool :=
  forallb (λ name, negb (String.eqb name "..")) (Pathlib.parts p).

(** Where a plain path leads, and the locations on the way there: those of
    the ancestors of the path below its anchor, then its own. *)
Definition place (w : world) (p : Pathlib.path) : location :=
  anchor w p ++ Pathlib.parts p.
Definition way (w : world) (p : Pathlib.path) : list location :=
  (λ k, anchor w p ++ take k (Pathlib.parts p)) <$> seq 1 (length (Pathlib.parts p)).

Definition is_directory (w : world) (loc : location) : bool :=
  match nodes w !! loc with
  | Some Directory => true
  | _ => false
  end.
Definition is_regular (w : world) (loc : location) : bool :=
  match nodes w !! loc with
  | Some (Regular _) => true
  | _ => false
  end.

(** The directory [p] is there or can be made: [p] is plain, it starts in a
    directory and no regular file is on its way. *)
Definition can_make (w : world) (p : Pathlib.path) : bool :=
  plain p && is_directory w (anchor w p) &&
  forallb (λ loc, negb (is_regular w loc)) (way w p).

(** The way is clear for a file at [target]: [target] is plain, its parent
    can be made and no directory is in its place. *)
Definition clear_way (w : world) (target : Pathlib.path) : bool :=
  plain target && can_make w (Pathlib.parent target) &&
  negb (is_directory w (place w target)).

(** * tools/gh_pr_automation.py: the pull-request script

    The script talks to the GitHub API through [urlopen] and reads the
    answers with [json.loads]; both are taken as given by a [Platform].  A
    JSON value is a [yaml] tree, as above, and a request carries the value
    that [json.dumps] turns into its body.  Bodies and files are text. *)

Module Gh.

(** The arguments of [urllib.request.Request]. *)
Record request : Type := Request {
  url : string;
  data : option yaml;
  method : string;
  headers : list (string * string);
}.

(** What [urlopen] does with a request: the server answers with a status
    and a body (an answer that raises [HTTPError] is one of these, [gh]
    catches it), or another exception is raised. *)
Inductive reply : Type :=
  | Reply (code : Z) (body : string)
  | NoReply.

Class Platform : Type := {
  server : Type;
  urlopen : request → server → reply * server;
  (** [json.loads]; [None] stands for [JSONDecodeError]. *)
  json_loads : string → option yaml;
}.

(** What ends a call early. *)
Inductive raised : Type :=
  | Exn (e : exn)
  | SysExit (status : Z)
  | KeyError
  | JSONDecodeError
  | URLError.

Inductive outcome (A : Type) : Type :=
  | Return (a : A)
  | Raised (r : raised).
Arguments Return {A} a.
Arguments Raised {A} r.

(** ** Constants read from the environment *)

Definition OWNER (environ : gmap string string) : string :=
  default "DegrassiAaron" (environ !! "GH_OWNER").
Definition REPO (environ : gmap string string) : string :=
  default "influencerai-monorepo" (environ !! "GH_REPO").

(** [os.environ.get("GH_TOKEN") or os.environ.get("GITHUB_TOKEN")]. *)
Definition TOKEN (environ : gmap string string) : option string :=
  match environ !! "GH_TOKEN" with
  | Some token => if String.eqb token "" then environ !! "GITHUB_TOKEN" else Some token
  | None => environ !! "GITHUB_TOKEN"
  end.

Definition BRANCH (environ : gmap string string) : string :=
  default "feature/WEB-01-auth" (environ !! "GH_BRANCH").
Definition BASE (environ : gmap string string) : string :=
  default "main" (environ !! "GH_BASE").
Definition API : string := "https://api.github.com".

Definition FILES : list string :=
  [ "apps/web/middleware.ts";
    "apps/web/src/__tests__/login.test.tsx";
    "apps/web/src/app/api/session/login/route.ts";
    "apps/web/src/app/api/session/logout/route.ts";
    "apps/web/src/app/api/session/status/route.ts";
    "apps/web/src/app/login/page.tsx";
    "apps/web/src/contexts/AuthContext.tsx";
    "apps/web/src/hooks/useAuth.ts";
    "apps/web/src/app/page.tsx";
    "apps/web/src/app/providers.tsx";
    "apps/web/src/__tests__/home.test.tsx";
    "apps/web/package.json";
    "get-installation-token.mjs" ].

(** The default of the parameter [accept] of [gh]. *)
Definition default_accept : string := "application/vnd.github+json".

(** ** Strings and JSON values *)

(** [sub in s] on strings. *)
Fixpoint contains (s sub : string) : bool :=
  Str.startswith s sub ||
  match s with
  | EmptyString => false
  | String _ s' => contains s' sub
  end.

(** [print(a, b, ...)]: the arguments with a space between them. *)
Fixpoint print_line (args : list string) : string :=
  match args with
  | [] => ""
  | [a] => a
  | a :: rest => a +:+ " " +:+ print_line rest
  end.

(** The entry that step 3 of [main] adds for a file. *)
Definition tree_item (rel content : string) : yaml :=
  YMap [(YStr "path", YStr rel); (YStr "mode", YStr "100644");
        (YStr "type", YStr "blob"); (YStr "content", YStr content)].

(** The loop of step 3: the files that exist, in the order of the list. *)
Fixpoint tree_items (files : list string) (texts : gmap string string) : list yaml :=
  match files with
  | [] => []
  | rel :: rest =>
      match texts !! rel with
      | None => tree_items rest texts
      | Some content => tree_item rel content :: tree_items rest texts
      end
  end.

(** The request that [gh] builds. *)
Definition build_request (token path method : string) (body : option yaml)
    (accept : string) : request :=
  Request (API +:+ path) body method
    ([("Authorization", "Bearer " +:+ token); ("Accept", accept)]
     ++ match body with
        | Some _ => [("Content-Type", "application/json")]
        | None => []
        end).

(** ** The state of a run *)

Section run.
Context `{Platform}.

Record state : Type := State {
  texts : gmap string string;
  github : server;
  sent : list request;
  out : list string;
  err : list string;
}.

Definition M (A : Type) : Type := state → outcome A * state.

#[global] Instance M_ret : MRet M := λ A a st, (Return a, st).
#[global] Instance M_bind : MBind M := λ A B f m st,
  match m st with
  | (Return a, st') => f a st'
  | (Raised r, st') => (Raised r, st')
  end.

Definition raise {A} (r : raised) : M A := λ st, (Raised r, st).

(** [print(..., file=sys.stderr)]. *)
Definition print_err (args : list string) : M () := λ st,
  (Return (), State (texts st) (github st) (sent st) (out st)
                (err st ++ [print_line args])).

(** [sys.exit(status)]. *)
Definition sys_exit {A} (status : Z) : M A := raise (SysExit status).

(** [json.loads(body)]. *)
Definition loads (body : string) : M yaml :=
  match json_loads body with
  | Some v => mret v
  | None => raise JSONDecodeError
  end.

(** [v[key]] for a string [key]. *)
Definition subscript (v : yaml) (key : string) : M yaml :=
  match v with
  | YMap d =>
      match dict_get d key with
      | Some x => mret x
      | None => raise KeyError
      end
  | _ => raise (Exn TypeError)
  end.

(** [x not in n] where [n] is an int: an int cannot be searched. *)
Definition not_in_int (x n : Z) : M bool := raise (Exn TypeError).

Definition gh (environ : gmap string string) (path method : string)
    (body : option yaml) (accept : string) : M (Z * string) := λ st,
  match TOKEN environ with
  | Some token =>
      if String.eqb token ""
      then (Raised (Exn (SystemExit "GH_TOKEN is required")), st)
      else
        let req := build_request token path method body accept in
        match urlopen req (github st) with
        | (Reply code body, srv) =>
            (Return (code, body),
             State (texts st) srv (sent st ++ [req]) (out st) (err st))
        | (NoReply, srv) =>
            (Raised URLError,
             State (texts st) srv (sent st ++ [req]) (out st) (err st))
        end
  | None => (Raised (Exn (SystemExit "GH_TOKEN is required")), st)
  end.

(** Step 3 of [main]: the loop over [FILES]. *)
Definition collect_tree_items : M (list yaml) := λ st,
  (Return (tree_items FILES (texts st)), st).

(** The paths of the five calls of steps 1 to 5. *)
Definition base_ref_path (environ : gmap string string) : string :=
  "/repos/" +:+ OWNER environ +:+ "/" +:+ REPO environ
  +:+ "/git/ref/heads/" +:+ BASE environ.
Definition refs_path (environ : gmap string string) : string :=
  "/repos/" +:+ OWNER environ +:+ "/" +:+ REPO environ +:+ "/git/refs".
Definition trees_path (environ : gmap string string) : string :=
  "/repos/" +:+ OWNER environ +:+ "/" +:+ REPO environ +:+ "/git/trees".
Definition commits_path (environ : gmap string string) : string :=
  "/repos/" +:+ OWNER environ +:+ "/" +:+ REPO environ +:+ "/git/commits".
Definition branch_ref_path (environ : gmap string string) : string :=
  "/repos/" +:+ OWNER environ +:+ "/" +:+ REPO environ
  +:+ "/git/refs/heads/" +:+ BRANCH environ.

Definition commit_message : string :=
  "WEB-01: implement web authentication, session middleware, login UI, and tests".

(** [main], lines 52 to 106.  Lines 108 to 149 (steps 6 to 9) are the
    parameter [steps_6_to_9], a computation over the values in scope. *)
Definition main (environ : gmap string string)
    (steps_6_to_9 : yaml → yaml → yaml → M ()) : M () :=
  '(code, body) ← gh environ (base_ref_path environ) "GET" None default_accept;
  (if negb (code =? 200)
   then print_err ["Failed to resolve base ref"; pretty code; body];; sys_exit 1
   else mret ());;
  base_sha ← (v ← loads body; o ← subscript v "object"; subscript o "sha");
  '(code, body) ← gh environ (refs_path environ) "POST"
      (Some (YMap [(YStr "ref", YStr ("refs/heads/" +:+ BRANCH environ));
                   (YStr "sha", base_sha)]))
      default_accept;
  (if negb ((code =? 200) || (code =? 201))
   then
     let msg := body in
     if contains msg "Reference already exists" then mret ()
     else print_err ["Create ref failed"; pretty code; msg];; sys_exit 1
   else mret ());;
  items ← collect_tree_items;
  '(code, body) ← gh environ (trees_path environ) "POST"
      (Some (YMap [(YStr "base_tree", base_sha); (YStr "tree", YList items)]))
      default_accept;
  (if negb ((code =? 200) || (code =? 201))
   then print_err ["Create tree failed"; pretty code; body];; sys_exit 1
   else mret ());;
  tree_sha ← (v ← loads body; subscript v "sha");
  '(code, body) ← gh environ (commits_path environ) "POST"
      (Some (YMap [(YStr "message", YStr commit_message);
                   (YStr "tree", tree_sha);
                   (YStr "parents", YList [base_sha])]))
      default_accept;
  (if negb ((code =? 200) || (code =? 201))
   then print_err ["Create commit failed"; pretty code; body];; sys_exit 1
   else mret ());;
  commit_sha ← (v ← loads body; subscript v "sha");
  '(code, body) ← gh environ (branch_ref_path environ) "PATCH"
      (Some (YMap [(YStr "sha", commit_sha); (YStr "force", YBool true)]))
      default_accept;
  failed ← not_in_int code 200;
  (if failed : bool
   then print_err ["Update ref failed"; pretty code; body];; sys_exit 1
   else mret ());;
  steps_6_to_9 base_sha tree_sha commit_sha.

(** The call [main()] at the foot of the script: the exit status of the
    process.  [sys.exit(n)] ends it with status [n]; [SystemExit] with a
    string prints the string on standard error and ends it with status 1, as
    does an exception nobody catches (which prints its traceback). *)
Definition script (environ : gmap string string)
    (steps_6_to_9 : yaml → yaml → yaml → M ()) (st : state) : Z * state :=
  match main environ steps_6_to_9 st with
  | (Return _, st') => (0, st')
  | (Raised (SysExit status), st') => (status, st')
  | (Raised (Exn (SystemExit msg)), st') =>
      (1, State (texts st') (github st') (sent st') (out st') (err st' ++ [msg]))
  | (Raised _, st') =>
      (1, State (texts st') (github st') (sent st') (out st')
            (err st' ++ ["Traceback (most recent call last):"]))
  end.

(** The calls of steps 1 to 5, in order: path and method. *)
Definition plan (environ : gmap string string) : list (string * string) :=
  [(base_ref_path environ, "GET"); (refs_path environ, "POST");
   (trees_path environ, "POST"); (commits_path environ, "POST");
   (branch_ref_path environ, "PATCH")].

(** [wp m Q st]: the run of [m] from [st] ends with an outcome and in a
    state that satisfy [Q]. *)
Definition wp {A} (m : M A) (Q : outcome A → state → Prop) (st : state) : Prop :=
  Q (m st).1 (m st).2.

(** What every run of [main] from [st] comes to, as an outcome [o] and a
    state [st']: it was stopped by [r], after sending [reqs], which follow
    the [plan] from its start. *)
Definition stopped (environ : gmap string string) (st : state)
    (o : outcome ()) (st' : state) : Prop :=
  ∃ r reqs,
    o = Raised r ∧
    texts st' = texts st ∧ out st' = out st ∧
    sent st' = sent st ++ reqs ∧
    Forall2 (λ req step,
               ∃ token, TOKEN environ = Some token ∧ token ≠ "" ∧
                 req = build_request token step.1 step.2 (data req) default_accept)
      reqs (take (length reqs) (plan environ)) ∧
    (length reqs = 5%nat → r = Exn TypeError ∨ r = URLError) ∧
    (∀ status, r = SysExit status → status = 1) ∧
    (∀ req, reqs !! 2%nat = Some req →
       ∃ base_sha,
         data req = Some (YMap [(YStr "base_tree", base_sha);
                                (YStr "tree", YList (tree_items FILES (texts st)))])).

End run.

(** ** A server to run the script against *)

(** A server that counts the requests: it answers the first with status 200,
    the second with status 422 because the branch exists, the later ones with
    status 201; and a parser that reads every body as the same object. *)
#[global] Instance counting_platform : Platform := {|
  server := nat;
  urlopen := λ req n,
    (match n with
     | 0%nat => Reply 200 "{}"
     | 1%nat => Reply 422 "Reference already exists"
     | _ => Reply 201 "{}"
     end, S n);
  json_loads := λ body,
    Some (YMap [(YStr "object", YMap [(YStr "sha", YStr "0a1b2c")]);
                (YStr "sha", YStr "3d4e5f")]);
|}.

Definition environ0 : gmap string string := {["GH_TOKEN" := "s3cr3t"]}.

Definition state0 : state :=
  State {["apps/web/package.json" := "{}"]} 0%nat [] [] [].

(** A server that has answered one request before the run starts, so that
    the first call of the run gets status 422. *)
Definition state1 : state := State ∅ 1%nat [] [] [].

End Gh.

(** * Properties *)

(** ** The scenarios of the specification *)

Example scenario_top2 :
  select_document Example.backlog 2
  = Ok (YMap [(YStr "issues", YList [Example.issue3; Example.issue2])]).
Proof. reflexivity. Qed.

Example scenario_all_defaults :
  select_document
    (YMap [(YStr "issues",
            YList [YMap [(YStr "id", YInt 1)]; YMap [(YStr "id", YInt 2)];
                   YMap [(YStr "id", YInt 3)]])]) 10
  = Ok (YMap [(YStr "issues",
               YList [YMap [(YStr "id", YInt 1)]; YMap [(YStr "id", YInt 2)];
                      YMap [(YStr "id", YInt 3)]])]).
Proof. reflexivity. Qed.

Example scenario_label_fallback :
  _normalise_priority (YMap [(YStr "labels", YList [YStr "priority:P1"])]) = Ok "P1" ∧
  _sort_key (YMap [(YStr "labels", YList [YStr "priority:P1"])]) 0
  = Ok (-3, -1, 3, 0).
Proof. split; reflexivity. Qed.

Example scenario_defaults :
  _sort_key (YMap []) 5 = Ok (-1, -1, 3, 5) ∧
  _normalise_priority (YMap []) = Ok "P3" ∧
  _normalise_impact (YMap []) = Ok "LOW" ∧
  _normalise_estimate (YMap []) = Ok "M".
Proof. repeat split; reflexivity. Qed.

Example scenario_label_record :
  _sort_key Example.issue4 3 = Ok (-2, -2, 1, 3).
Proof. reflexivity. Qed.

(** What lies outside the records: an entry of ['issues'] that is no mapping,
    and a [labels] field that is a number. *)
Example entry_not_a_mapping :
  select_document (YMap [(YStr "issues", YList [YStr "fix the build"])]) 10
  = Raise AttributeError.
Proof. reflexivity. Qed.

Example labels_not_iterable :
  select_document
    (YMap [(YStr "issues", YList [YMap [(YStr "labels", YInt 5)]])]) 10
  = Raise TypeError.
Proof. reflexivity. Qed.

(** ** The order on keys *)

Section key_order.
Implicit Types a b c : sort_key.

Lemma key_ltb_irrefl a : key_ltb a a = false.
Proof.
  destruct a as [[[a1 a2] a3] a4]; unfold key_ltb.
  rewrite !Z.eqb_refl; simpl. apply Z.ltb_irrefl.
Qed.

Lemma key_ltb_trans a b c :
  key_ltb a b = true → key_ltb b c = true → key_ltb a c = true.
Proof.
  destruct a as [[[a1 a2] a3] a4], b as [[[b1 b2] b3] b4],
    c as [[[c1 c2] c3] c4]; unfold key_ltb.
  repeat match goal with
         | |- context [?x =? ?y] => destruct (Z.eqb_spec x y); simpl
         | |- context [?x <? ?y] => destruct (Z.ltb_spec x y); simpl
         end; intros; try done; lia.
Qed.

Lemma key_ltb_asym a b : key_ltb a b = true → key_ltb b a = false.
Proof.
  intros Hab. destruct (key_ltb b a) eqn:Hba; [|done].
  by rewrite <-(key_ltb_irrefl a), <-(key_ltb_trans _ _ _ Hab Hba).
Qed.

Lemma key_ltb_total a b :
  key_ltb a b = false → key_ltb b a = false → a = b.
Proof.
  destruct a as [[[a1 a2] a3] a4], b as [[[b1 b2] b3] b4]; unfold key_ltb.
  repeat match goal with
         | |- context [?x =? ?y] => destruct (Z.eqb_spec x y); simpl
         | |- context [?x <? ?y] => destruct (Z.ltb_spec x y); simpl
         end; intros; try done; repeat f_equal; lia.
Qed.

(** The order spelled out on the components. *)
Lemma key_ltb_lex (a1 a2 a3 a4 b1 b2 b3 b4 : Z) :
  key_ltb (a1, a2, a3, a4) (b1, b2, b3, b4) = true ↔
  a1 < b1 ∨ (a1 = b1 ∧ (a2 < b2 ∨ (a2 = b2 ∧ (a3 < b3 ∨ (a3 = b3 ∧ a4 < b4))))).
Proof.
  unfold key_ltb.
  repeat match goal with
         | |- context [?x =? ?y] => destruct (Z.eqb_spec x y); simpl
         | |- context [?x <? ?y] => destruct (Z.ltb_spec x y); simpl
         end; split; intros; try done; lia.
Qed.
End key_order.

(** ** Strings *)

Module StrFacts.
Import Str.

Lemma lower_char_colon c : lower_char c = ":"%char → c = ":"%char.
Proof. destruct c as [[] [] [] [] [] [] [] []]; vm_compute; congruence. Qed.

Lemma split1_mem sep s :
  mem_char sep s = true → ∃ before after, split1 sep s = [before; after].
Proof.
  induction s as [|c s IH]; simpl; [done|].
  destruct (Ascii.eqb c sep); simpl; [eauto|].
  intros [before [after ->]]%IH. eauto.
Qed.

(** A string whose lower-cased form starts with a prefix that holds a colon
    holds a colon itself, so splitting it at the colon gives two parts. *)
Lemma startswith_lower_split p s :
  mem_char ":" p = true → startswith (lower s) p = true →
  ∃ before after, split1 ":" s = [before; after].
Proof.
  intros Hp Hs. apply split1_mem. revert p Hp Hs.
  induction s as [|c s IH]; intros [|a p]; simpl; try done.
  destruct (Ascii.eqb_spec a (lower_char c)) as [->|]; [|done].
  destruct (Ascii.eqb_spec (lower_char c) ":") as [Hc|]; simpl.
  - apply lower_char_colon in Hc as ->. by rewrite Ascii.eqb_refl.
  - intros Hp Hs. rewrite (IH p Hp Hs). apply orb_true_r.
Qed.
End StrFacts.

(** ** Normalisation never fails on a record *)

Lemma scan_labels_ok prefix labels :
  Str.mem_char ":" prefix = true → ∃ found, scan_labels prefix labels = Ok found.
Proof.
  intros Hp. induction labels as [|[] rest IH]; simpl; eauto.
  destruct (Str.startswith _ _) eqn:Hs; [|done].
  destruct (StrFacts.startswith_lower_split _ _ Hp Hs) as (before & after & ->).
  simpl. eauto.
Qed.

Lemma labels_of_record d :
  is_record (YMap d) = true →
  ∃ v, labels_of (YMap d) = Ok v ∧ py_iter v = Ok (record_labels d).
Proof.
  unfold is_record, scannable, record_labels, labels_of; simpl.
  destruct (dict_get d "labels") as [[|[]|n|s|[]|[]]|]; simpl; try done; eauto.
  - destruct (n =? 0); simpl; try done; eauto.
  - destruct (String.eqb s ""); simpl; eauto.
Qed.

(** On a record the three normalisations are the direct field when it is a
    string, and otherwise the outcome of the scan (or the default alone, for
    the estimate). *)
Lemma normalise_priority_record d :
  is_record (YMap d) = true →
  _normalise_priority (YMap d) =
    match dict_get d "priority" with
    | Some (YStr s) => Ok (Str.upper s)
    | _ => default "P3" <$> scan_labels "priority:" (record_labels d)
    end.
Proof.
  intros (v & Hv & Hit)%labels_of_record. unfold _normalise_priority; simpl.
  destruct (dict_get d "priority") as [[]|]; try done;
    rewrite Hv; simpl; rewrite Hit; simpl;
    by destruct (scan_labels _ _).
Qed.

Lemma normalise_impact_record d :
  is_record (YMap d) = true →
  _normalise_impact (YMap d) =
    match dict_get d "impact" with
    | Some (YStr s) => Ok (Str.upper s)
    | _ => default "LOW" <$> scan_labels "impact:" (record_labels d)
    end.
Proof.
  intros (v & Hv & Hit)%labels_of_record. unfold _normalise_impact; simpl.
  destruct (dict_get d "impact") as [[]|]; try done;
    rewrite Hv; simpl; rewrite Hit; simpl;
    by destruct (scan_labels _ _).
Qed.

Lemma normalise_estimate_record d :
  _normalise_estimate (YMap d) =
    match dict_get d "estimate" with
    | Some (YStr s) => Ok (Str.upper s)
    | _ => Ok "M"
    end.
Proof. unfold _normalise_estimate; simpl. by destruct (dict_get d _) as [[]|]. Qed.

(** The key of a record is defined, and only its last component depends on
    the index. *)
Lemma sort_key_record issue :
  is_record issue = true →
  ∃ p i e, ∀ index, _sort_key issue index = Ok (- p, - i, e, index).
Proof.
  destruct issue as [| | | | |d]; try done. intros Hrec.
  unfold _sort_key.
  rewrite (normalise_priority_record d Hrec), (normalise_impact_record d Hrec),
    normalise_estimate_record.
  destruct (scan_labels_ok "priority:" (record_labels d) eq_refl) as [fp ->].
  destruct (scan_labels_ok "impact:" (record_labels d) eq_refl) as [fi ->].
  destruct (dict_get d "priority") as [[]|], (dict_get d "impact") as [[]|],
    (dict_get d "estimate") as [[]|]; simpl; eauto.
Qed.

(** ** The insertion sort on decorated items *)

Lemma StronglySorted_lookup {A} (R : relation A) (l : list A) i j x y :
  StronglySorted R l → (i < j)%nat → l !! i = Some x → l !! j = Some y → R x y.
Proof.
  intros Hl. revert i j. induction Hl as [|z l Hl IH Hz]; intros i j Hij Hi Hj.
  - by rewrite lookup_nil in Hi.
  - destruct j as [|j]; [lia|]. destruct i as [|i]; simplify_eq/=.
    + eapply Forall_lookup_1; eauto.
    + apply (IH i j); auto with lia.
Qed.

Lemma StronglySorted_lookup_2 {A} (R : relation A) (l : list A) :
  (∀ i j x y, (i < j)%nat → l !! i = Some x → l !! j = Some y → R x y) →
  StronglySorted R l.
Proof.
  induction l as [|z l IH]; intros Hl; constructor.
  - apply IH. intros i j x y Hij Hi Hj. apply (Hl (S i) (S j)); auto with lia.
  - apply Forall_lookup_2. intros j y Hj. apply (Hl 0%nat (S j)); auto with lia.
Qed.

Lemma StronglySorted_fmap_inv {A B} (f : A → B) (R : relation B) (l : list A) :
  StronglySorted R (f <$> l) → StronglySorted (λ a b, R (f a) (f b)) l.
Proof.
  induction l as [|x l IH]; csimpl; [constructor|].
  intros [Hx Hl]%StronglySorted_cons. constructor; [by apply IH|].
  apply Forall_forall. intros a Ha. rewrite Forall_forall in Hx.
  by apply Hx, list_elem_of_fmap_2.
Qed.

Section sorting.
Context {A : Type}.
Implicit Types (x y : sort_key * A) (l : list (sort_key * A)).

Local Abbreviation lt := (λ x y, key_ltb x.1 y.1 = true).

Lemma insert_key_perm x l : insert_key x l ≡ₚ x :: l.
Proof.
  induction l as [|y l IH]; simpl; [done|].
  destruct (key_ltb y.1 x.1); [|done].
  by rewrite IH, Permutation_swap.
Qed.

Lemma sort_keys_perm l : sort_keys l ≡ₚ l.
Proof.
  induction l as [|x l IH]; simpl; [done|].
  by rewrite insert_key_perm, IH.
Qed.

Lemma insert_key_sorted x l :
  Forall (λ y, y.1 ≠ x.1) l →
  StronglySorted lt l → StronglySorted lt (insert_key x l).
Proof.
  intros Hne Hl. induction Hl as [|y l Hl IH Hy]; simpl.
  - repeat constructor.
  - apply Forall_cons in Hne as [Hyx Hne].
    destruct (key_ltb y.1 x.1) eqn:Hlt.
    + constructor; [by apply IH|].
      rewrite insert_key_perm. by constructor.
    + assert (key_ltb x.1 y.1 = true) as Hxy.
      { destruct (key_ltb x.1 y.1) eqn:Hgt; [done|].
        destruct Hyx. by apply key_ltb_total. }
      constructor; [by constructor|].
      constructor; [done|].
      eapply Forall_impl; [exact Hy|]. simpl; eauto using key_ltb_trans.
Qed.

(** Items whose keys are pairwise different come out in strictly
    increasing order of key. *)
Lemma sort_keys_sorted l : NoDup l.*1 → StronglySorted lt (sort_keys l).
Proof.
  induction l as [|x l IH]; csimpl; [constructor|].
  intros [Hx Hl]%NoDup_cons. apply insert_key_sorted; [|by apply IH].
  rewrite sort_keys_perm. apply Forall_forall. intros y Hy Heq.
  apply Hx. rewrite <-Heq. by apply list_elem_of_fmap_2.
Qed.

(** A list that is in increasing order already is left as it is. *)
Lemma sort_keys_id l : StronglySorted lt l → sort_keys l = l.
Proof.
  induction 1 as [|x l Hl IH Hx]; simpl; [done|].
  rewrite IH. destruct Hx as [|y l' Hxy _]; simpl; [done|].
  by rewrite (key_ltb_asym _ _ Hxy).
Qed.

(** [decorate] with a key that is defined on every item. *)
Lemma decorate_total (key : A → result sort_key) (k : A → sort_key) (l : list A) :
  Forall (λ a, key a = Ok (k a)) l →
  decorate key l = Ok ((λ a, (k a, a)) <$> l).
Proof.
  induction 1 as [|a l Ha _ IH]; simpl; [done|].
  by rewrite Ha; simpl; rewrite IH.
Qed.
End sorting.

Lemma decorated_shape {A K} (dec : A → K * A) (m : list (K * A)) :
  Forall (λ kx, kx = dec kx.2) m → m = dec <$> m.*2.
Proof.
  induction 1 as [|kx m Hkx _ IH]; csimpl; [done|]. by rewrite <-Hkx, <-IH.
Qed.

(** ** Enumeration *)

Lemma lookup_enumerate_from {A} (l : list A) start i :
  enumerate_from start l !! i = (λ x, ((start + i)%nat, x)) <$> l !! i.
Proof.
  revert start i. induction l as [|x l IH]; intros start [|i]; simpl; try done.
  - by rewrite Nat.add_0_r.
  - rewrite IH. by replace (S start + i)%nat with (start + S i)%nat by lia.
Qed.

Lemma enumerate_from_fst {A} (l : list A) start :
  (enumerate_from start l).*1 = seq start (length l).
Proof. revert start. induction l; intros; csimpl; f_equal; auto. Qed.

Lemma enumerate_from_snd {A} (l : list A) start :
  (enumerate_from start l).*2 = l.
Proof. revert start. induction l; intros; csimpl; f_equal; auto. Qed.

Lemma elem_of_enumerate {A} (l : list A) i x :
  (i, x) ∈ enumerate l ↔ l !! i = Some x.
Proof.
  unfold enumerate. rewrite list_elem_of_lookup. split.
  - intros [j Hj]. rewrite lookup_enumerate_from in Hj.
    destruct (l !! j) eqn:?; by simplify_eq/=.
  - intros Hi. exists i. by rewrite lookup_enumerate_from, Hi.
Qed.

(** ** The sort of the enumerated records *)

Lemma rank_of_record issue index :
  is_record issue = true → _sort_key issue index = Ok (rank_of issue, index).
Proof.
  intros (p & i & e & Hk)%sort_key_record. unfold rank_of. by rewrite !Hk.
Qed.

Lemma key_ltb_reindex (r r' : Z * Z * Z) (i j i' j' : Z) :
  key_ltb (r, i) (r', j) = true → i' < j' → key_ltb (r, i') (r', j') = true.
Proof.
  destruct r as [[r1 r2] r3], r' as [[r1' r2'] r3']. rewrite !key_ltb_lex. lia.
Qed.

(** The order in which [sorted] leaves two enumerated records. *)
Local Abbreviation item_lt :=
  (λ a b : nat * yaml,
     key_ltb (rank_of a.2, Z.of_nat a.1) (rank_of b.2, Z.of_nat b.1) = true).

Lemma sorted_enumerated_spec issues :
  Forall (λ v, is_record v = true) issues →
  ∃ ranked, sorted_enumerated issues = Ok ranked ∧
    ranked ≡ₚ enumerate issues ∧ StronglySorted item_lt ranked.
Proof.
  intros Hrec. set (dec := λ a : nat * yaml, ((rank_of a.2, Z.of_nat a.1), a)).
  assert (decorate item_key (enumerate issues) = Ok (dec <$> enumerate issues))
    as Hdec.
  { apply (decorate_total _ (λ a, (rank_of a.2, Z.of_nat a.1))).
    apply Forall_forall. intros [i x] Hx%elem_of_enumerate; simpl.
    apply rank_of_record. rewrite Forall_forall in Hrec.
    eapply Hrec, list_elem_of_lookup_2, Hx. }
  unfold sorted_enumerated, sorted. rewrite Hdec; simpl.
  eexists; split; [done|].
  assert (sort_keys (dec <$> enumerate issues)
          = dec <$> (sort_keys (dec <$> enumerate issues)).*2) as Hshape.
  { apply decorated_shape. rewrite sort_keys_perm.
    apply Forall_fmap, Forall_forall. by intros []. }
  split.
  - rewrite sort_keys_perm, <-list_fmap_compose. by rewrite list_fmap_id.
  - apply (StronglySorted_fmap_inv dec (λ x y, key_ltb x.1 y.1 = true)).
    rewrite <-Hshape. apply sort_keys_sorted.
    rewrite <-list_fmap_compose.
    apply (NoDup_fmap_1 (λ k : sort_key, Z.to_nat k.2)).
    rewrite <-list_fmap_compose.
    erewrite (list_fmap_ext _ fst); [|intros ? [] _; simpl; apply Nat2Z.id].
    unfold enumerate. rewrite enumerate_from_fst. apply NoDup_seq.
Qed.

(** Two records in the order of their first three key components, whatever
    indices they carry. *)
Local Abbreviation rank_le :=
  (λ x y : yaml,
     ∀ i j : Z, i < j → key_ltb (rank_of x, i) (rank_of y, j) = true).

Lemma sorted_issues_spec issues :
  Forall (λ v, is_record v = true) issues →
  ∃ ranked, sorted_enumerated issues = Ok ranked ∧
    sorted_issues issues = Ok ranked.*2 ∧
    ranked ≡ₚ enumerate issues ∧ StronglySorted item_lt ranked ∧
    ranked.*2 ≡ₚ issues ∧ StronglySorted rank_le ranked.*2.
Proof.
  intros (ranked & Hs & Hperm & Hsorted)%sorted_enumerated_spec.
  exists ranked. unfold sorted_issues. rewrite Hs. repeat split; try done.
  - rewrite Hperm. unfold enumerate. by rewrite enumerate_from_snd.
  - apply (StronglySorted_fmap snd item_lt); [|done].
    intros a b Hab i j Hij. by apply (key_ltb_reindex _ _ _ _ _ _ Hab).
Qed.

(** A list of records that is in rank order already is returned as it is. *)
Lemma sorted_issues_id issues :
  Forall (λ v, is_record v = true) issues →
  StronglySorted rank_le issues → sorted_issues issues = Ok issues.
Proof.
  intros Hrec Hsorted.
  set (dec := λ a : nat * yaml, ((rank_of a.2, Z.of_nat a.1), a)).
  assert (decorate item_key (enumerate issues) = Ok (dec <$> enumerate issues))
    as Hdec.
  { apply (decorate_total _ (λ a, (rank_of a.2, Z.of_nat a.1))).
    apply Forall_forall. intros [i x] Hx%elem_of_enumerate; simpl.
    apply rank_of_record. rewrite Forall_forall in Hrec.
    eapply Hrec, list_elem_of_lookup_2, Hx. }
  unfold sorted_issues, sorted_enumerated, sorted. rewrite Hdec; simpl.
  rewrite sort_keys_id.
  - rewrite <-(list_fmap_compose dec snd).
    change (snd ∘ dec) with (@id (nat * yaml)%type). rewrite list_fmap_id.
    unfold enumerate. by rewrite enumerate_from_snd.
  - apply StronglySorted_lookup_2. intros a b kx ky Hab Ha Hb.
    rewrite list_lookup_fmap in Ha, Hb. unfold enumerate in Ha, Hb.
    rewrite lookup_enumerate_from in Ha, Hb.
    destruct (issues !! a) as [x|] eqn:Hx; [|done].
    destruct (issues !! b) as [y|] eqn:Hy; [|done].
    simplify_eq/=. apply (StronglySorted_lookup _ _ _ _ _ _ Hsorted Hab Hx Hy). lia.
Qed.

Lemma select_document_issues d issues ranked limit :
  dict_get d "issues" = Some (YList issues) →
  sorted_issues issues = Ok ranked →
  select_document (YMap d) limit
  = Ok (YMap [(YStr "issues", YList (slice_to ranked limit))]).
Proof. intros Hd Hs. unfold select_document. by rewrite Hd, Hs. Qed.

Lemma slice_to_nonneg {A} (l : list A) (stop : Z) :
  0 ≤ stop → slice_to l stop = take (Z.to_nat stop) l.
Proof. intros. unfold slice_to. by destruct (Z.ltb_spec stop 0); [lia|]. Qed.

Lemma slice_to_prefix {A} (l : list A) (stop : Z) :
  ∃ rest, l = slice_to l stop ++ rest.
Proof.
  unfold slice_to. destruct (stop <? 0); eexists; symmetry; apply take_drop.
Qed.

(** ** Paths and their resolution *)

Lemma fold_step_raise w names e : fold_left (step w) names (Raise e) = Raise e.
Proof. induction names; done. Qed.

Lemma step_Ok w loc name :
  step w (Ok loc) name
  = match nodes w !! loc with
    | Some Directory =>
        Ok (if String.eqb name ".." then removelast loc else loc ++ [name])
    | Some (Regular _) => Raise NotADirectoryError
    | None => Raise FileNotFoundError
    end.
Proof. done. Qed.

Lemma resolve_snoc w r names name :
  resolve w (Pathlib.MkPath r (names ++ [name]))
  = step w (resolve w (Pathlib.MkPath r names)) name.
Proof. unfold resolve, anchor. simpl. by rewrite fold_left_app. Qed.

Lemma parent_snoc r names name :
  Pathlib.parent (Pathlib.MkPath r (names ++ [name])) = Pathlib.MkPath r names.
Proof. unfold Pathlib.parent. simpl. by rewrite removelast_last. Qed.

(** A resolution that succeeds goes through directories only, and succeeds
    in every world that has them. *)
Lemma fold_step_dirs w w' names dir loc :
  (∀ l, nodes w !! l = Some Directory → nodes w' !! l = Some Directory) →
  fold_left (step w) names dir = Ok loc →
  fold_left (step w') names dir = Ok loc.
Proof.
  intros Hdirs. revert dir. induction names as [|name names IH]; [done|].
  intros dir Hloc. cbn [fold_left] in *.
  destruct dir as [l|e];
    [|by change (step w (Raise e) name) with (@Raise location e) in Hloc;
         rewrite fold_step_raise in Hloc].
  apply IH. rewrite step_Ok in *.
  destruct (nodes w !! l) as [[|f]|] eqn:Hl;
    try (by rewrite fold_step_raise in Hloc).
  by rewrite (Hdirs _ Hl).
Qed.

Lemma resolve_dirs w w' p loc :
  cwd w' = cwd w →
  (∀ l, nodes w !! l = Some Directory → nodes w' !! l = Some Directory) →
  resolve w p = Ok loc → resolve w' p = Ok loc.
Proof.
  intros Hcwd Hdirs. unfold resolve, anchor. rewrite Hcwd.
  by apply fold_step_dirs.
Qed.

(** ** Worlds that grow *)

Lemma grows_refl w : grows w w.
Proof. by repeat split. Qed.

Lemma grows_trans w1 w2 w3 : grows w1 w2 → grows w2 w3 → grows w1 w3.
Proof.
  intros (Hc & Ho & He & Hk & Hr) (Hc' & Ho' & He' & Hk' & Hr').
  repeat split; [congruence..| |]; eauto.
Qed.

Lemma grows_set_directory w loc :
  nodes w !! loc = None → grows w (set_node loc Directory w).
Proof.
  intros Hloc. repeat split; simpl.
  - intros l n Hl. rewrite lookup_insert_ne; [done|]. congruence.
  - intros l f Hl. destruct (decide (loc = l)) as [->|].
    + by rewrite lookup_insert_eq in Hl.
    + by rewrite lookup_insert_ne in Hl.
Qed.

Lemma grows_files w w' : grows w w' → files w' = files w.
Proof.
  intros (_ & _ & _ & Hk & Hr). apply map_eq. intros loc.
  unfold files. rewrite !lookup_omap.
  destruct (nodes w !! loc) as [n|] eqn:Hn.
  - by rewrite (Hk _ _ Hn).
  - destruct (nodes w' !! loc) as [[|f]|] eqn:Hn'; [done| |done].
    apply Hr in Hn'. congruence.
Qed.

Lemma grows_resolve w w' p loc :
  grows w w' → resolve w p = Ok loc → resolve w' p = Ok loc.
Proof. intros (Hc & _ & _ & Hk & _). apply resolve_dirs; eauto. Qed.

Lemma grows_stat w w' p n :
  grows w w' → stat w p = Ok n → stat w' p = Ok n.
Proof.
  intros Hg. unfold stat.
  destruct (resolve w p) as [loc|e] eqn:Hloc; [|done].
  rewrite (grows_resolve _ _ _ _ Hg Hloc). simpl.
  destruct (nodes w !! loc) as [n'|] eqn:Hn; [|done].
  intros [= ->]. destruct Hg as (_ & _ & _ & Hk & _). by rewrite (Hk _ _ Hn).
Qed.

Lemma grows_load w w' p :
  grows w w' → path_exists p w = true → load p w' = load p w.
Proof.
  intros Hg. unfold path_exists, load.
  destruct (stat w p) as [n|e] eqn:Hn; [|done].
  by rewrite (grows_stat _ _ _ _ Hg Hn).
Qed.

(** ** Making directories *)

Lemma os_mkdir_inv p w r w' :
  os_mkdir p w = (r, w') →
  (∃ e, r = Raise e ∧ w' = w) ∨
  (∃ loc, r = Ok () ∧ resolve w p = Ok loc ∧ nodes w !! loc = None ∧
          w' = set_node loc Directory w).
Proof.
  unfold os_mkdir. destruct (resolve w p) as [loc|e]; [|intros [= <- <-]; eauto].
  destruct (nodes w !! loc) eqn:Hloc; intros [= <- <-]; eauto 10.
Qed.

Lemma os_mkdir_grows p w r w' : os_mkdir p w = (r, w') → grows w w'.
Proof.
  intros [(e & -> & ->)|(loc & -> & _ & Hloc & ->)]%os_mkdir_inv.
  - apply grows_refl.
  - by apply grows_set_directory.
Qed.

Lemma mkdir_exist_ok_grows p w r w' : mkdir_exist_ok p w = (r, w') → grows w w'.
Proof.
  unfold mkdir_exist_ok. destruct (os_mkdir p w) as [[[]|e] w1] eqn:Hos.
  - intros [= <- <-]. by eapply os_mkdir_grows.
  - destruct e, (is_dir p w); intros [= <- <-]; apply grows_refl.
Qed.

Lemma mkdir_parents_grows fuel p w r w' :
  mkdir_parents fuel p w = (r, w') → grows w w'.
Proof.
  revert p w r w'. induction fuel as [|fuel IH]; intros p w r w'; simpl.
  - destruct (os_mkdir p w) as [[[]|e] w1] eqn:Hos.
    + intros [= <- <-]. by eapply os_mkdir_grows.
    + destruct e, (is_dir p w); intros [= <- <-]; apply grows_refl.
  - destruct (os_mkdir p w) as [[[]|e] w1] eqn:Hos.
    + intros [= <- <-]. by eapply os_mkdir_grows.
    + destruct e; try (destruct (is_dir p w); intros [= <- <-]; apply grows_refl).
      destruct (mkdir_parents fuel (Pathlib.parent p) w) as [[[]|e] w2] eqn:Hpar.
      * intros Hp. eapply grows_trans; [by eapply IH|by eapply mkdir_exist_ok_grows].
      * intros [= <- <-]. by eapply IH.
Qed.

Lemma mkdir_grows p w r w' : mkdir p w = (r, w') → grows w w'.
Proof. apply mkdir_parents_grows. Qed.

(** [mkdir] raises [OSError]s only. *)
Lemma resolve_os_error w p e : resolve w p = Raise e → os_error e = true.
Proof.
  unfold resolve. generalize (anchor w p).
  induction (Pathlib.parts p) as [|name names IH] using rev_ind; [done|].
  intros loc. rewrite fold_left_app. simpl.
  destruct (fold_left (step w) names (Ok loc)) as [l|e'] eqn:Hl.
  - rewrite step_Ok. by destruct (nodes w !! l) as [[|f]|]; intros [= <-].
  - intros [= <-]. by eapply IH.
Qed.

Lemma os_mkdir_os_error p w e w' : os_mkdir p w = (Raise e, w') → os_error e = true.
Proof.
  unfold os_mkdir. destruct (resolve w p) as [loc|e'] eqn:Hloc.
  - by destruct (nodes w !! loc); intros [= <- <-].
  - intros [= <- <-]. by eapply resolve_os_error.
Qed.

Lemma mkdir_exist_ok_os_error p w e w' :
  mkdir_exist_ok p w = (Raise e, w') → os_error e = true.
Proof.
  unfold mkdir_exist_ok. destruct (os_mkdir p w) as [[[]|e'] w1] eqn:Hos; [done|].
  apply os_mkdir_os_error in Hos.
  by destruct e', (is_dir p w); try done; intros [= <- <-].
Qed.

Lemma mkdir_parents_os_error fuel p w e w' :
  mkdir_parents fuel p w = (Raise e, w') → os_error e = true.
Proof.
  revert p w w'. induction fuel as [|fuel IH]; intros p w w'; simpl;
    (destruct (os_mkdir p w) as [[[]|e'] w1] eqn:Hos; [done|]);
    apply os_mkdir_os_error in Hos.
  - by destruct e', (is_dir p w); try done; intros [= <- <-].
  - destruct e'; try done;
      try (by destruct (is_dir p w); try done; intros [= <- <-]).
    destruct (mkdir_parents fuel (Pathlib.parent p) w) as [[[]|e1] w2] eqn:Hpar.
    + apply mkdir_exist_ok_os_error.
    + intros [= <- <-]. by eapply IH.
Qed.

Lemma mkdir_os_error p w e w' : mkdir p w = (Raise e, w') → os_error e = true.
Proof. apply mkdir_parents_os_error. Qed.

Lemma parent_self p : Pathlib.parent p = p ↔ Pathlib.parts p = [].
Proof.
  destruct p as [r names]. unfold Pathlib.parent. simpl. split; [|by intros ->].
  intros [= Hnames]. destruct names as [|name names _] using rev_ind; [done|].
  rewrite removelast_last in Hnames. apply (f_equal length) in Hnames.
  rewrite length_app in Hnames. simpl in Hnames. lia.
Qed.

(** [mkdir] follows the method of [pathlib]: the recursion never stops for
    want of components. *)
Lemma mkdir_unfold p w :
  mkdir p w
  = match os_mkdir p w with
    | (Ok _, w') => (Ok (), w')
    | (Raise FileNotFoundError, _) =>
        if bool_decide (Pathlib.parent p = p) then (Raise FileNotFoundError, w)
        else
          match mkdir (Pathlib.parent p) w with
          | (Ok _, w') => mkdir_exist_ok p w'
          | (Raise e, w') => (Raise e, w')
          end
    | (Raise e, _) => if is_dir p w then (Ok (), w) else (Raise e, w)
    end.
Proof.
  unfold mkdir. destruct p as [r names].
  destruct names as [|name names _] using rev_ind.
  - rewrite bool_decide_eq_true_2 by done. simpl.
    by destruct (os_mkdir _ w) as [[[]|[]] ?].
  - rewrite bool_decide_eq_false_2.
    2: { rewrite parent_self. simpl. by destruct names. }
    rewrite parent_snoc. simpl Pathlib.parts.
    rewrite length_app, Nat.add_1_r. cbn [mkdir_parents]. by rewrite parent_snoc.
Qed.

(** ** Plain paths *)

Lemma plain_snoc r names name :
  plain (Pathlib.MkPath r (names ++ [name])) = true ↔
  plain (Pathlib.MkPath r names) = true ∧ String.eqb name ".." = false.
Proof.
  unfold plain. simpl. rewrite forallb_app. simpl.
  by rewrite andb_true_r, andb_true_iff, negb_true_iff.
Qed.

Lemma resolve_plain w p loc :
  plain p = true → resolve w p = Ok loc → loc = place w p.
Proof.
  destruct p as [r names]. revert loc.
  induction names as [|name names IH] using rev_ind; intros loc Hplain Hloc.
  - unfold resolve in Hloc. simpl in Hloc. injection Hloc as <-.
    unfold place. simpl. by rewrite app_nil_r.
  - rewrite resolve_snoc in Hloc. apply plain_snoc in Hplain as [Hplain Hname].
    destruct (resolve w (Pathlib.MkPath r names)) as [l|e]; [|done].
    rewrite step_Ok, Hname in Hloc.
    destruct (nodes w !! l) as [[|f]|]; try done. injection Hloc as <-.
    rewrite (IH l) by done. unfold place, anchor. simpl. by rewrite app_assoc.
Qed.

(** On the way of a plain path that meets no regular file, the resolution
    fails for want of a directory only. *)
Lemma resolve_plain_raise w r names e :
  let p := Pathlib.MkPath r names in
  plain p = true →
  (∀ k, (k ≤ length names)%nat → is_regular w (anchor w p ++ take k names) = false) →
  resolve w p = Raise e → e = FileNotFoundError.
Proof.
  simpl. induction names as [|name names IH] using rev_ind; intros Hplain Hway He.
  - done.
  - rewrite resolve_snoc in He. apply plain_snoc in Hplain as [Hplain Hname].
    assert (∀ k, (k ≤ length names)%nat →
              is_regular w (anchor w (Pathlib.MkPath r names) ++ take k names) = false)
      as Hway'.
    { intros k Hk. rewrite <-(take_app_le names [name]) by done.
      apply Hway. rewrite length_app. lia. }
    destruct (resolve w (Pathlib.MkPath r names)) as [l|e'] eqn:Hl.
    + apply resolve_plain in Hl as ->; [|done].
      rewrite step_Ok in He. pose proof (Hway' (length names) (le_n _)) as Hreg.
      rewrite firstn_all in Hreg. unfold is_regular, place in *. simpl in *.
      destruct (nodes w !! _) as [[|f]|]; congruence.
    + injection He as <-. by apply IH.
Qed.

(** ** Making directories on a plain path *)

Lemma is_dir_directory p w loc :
  resolve w p = Ok loc → is_dir p w = is_directory w loc.
Proof.
  intros Hloc. unfold is_dir, stat, is_directory. rewrite Hloc. simpl.
  by destruct (nodes w !! loc) as [[|f]|].
Qed.

Lemma os_mkdir_there p w loc :
  resolve w p = Ok loc → is_regular w loc = false →
  os_mkdir p w = (Ok (), set_node loc Directory w) ∧ nodes w !! loc = None ∨
  os_mkdir p w = (Raise FileExistsError, w) ∧ is_dir p w = true.
Proof.
  intros Hloc Hreg. rewrite (is_dir_directory _ _ _ Hloc).
  unfold os_mkdir, is_regular, is_directory in *. rewrite Hloc.
  destruct (nodes w !! loc) as [[|f]|]; auto.
Qed.

Lemma set_directory_spec p w loc :
  resolve w p = Ok loc → nodes w !! loc = None →
  resolve (set_node loc Directory w) p = Ok loc ∧
  is_directory (set_node loc Directory w) loc = true ∧
  (∀ l, l ≠ loc → nodes (set_node loc Directory w) !! l = nodes w !! l).
Proof.
  intros Hloc Hnone. split; [|split].
  - eapply grows_resolve; [by apply grows_set_directory|done].
  - unfold is_directory. simpl. by rewrite lookup_insert_eq.
  - intros l Hl. simpl. by rewrite lookup_insert_ne.
Qed.

Lemma mkdir_parents_plain w r names :
  let p := Pathlib.MkPath r names in
  plain p = true →
  is_directory w (anchor w p) = true →
  (∀ k, (k ≤ length names)%nat → is_regular w (anchor w p ++ take k names) = false) →
  ∃ w',
    mkdir_parents (length names) p w = (Ok (), w') ∧
    resolve w' p = Ok (place w p) ∧
    is_directory w' (place w p) = true ∧
    (∀ loc, (length (place w p) < length loc)%nat → nodes w' !! loc = nodes w !! loc).
Proof.
  simpl. revert w.
  induction names as [|name names IH] using rev_ind; intros w Hplain Hanchor Hway.
  - assert (resolve w (Pathlib.MkPath r []) = Ok (anchor w (Pathlib.MkPath r [])))
      as Hloc by done.
    exists w. unfold place. simpl. rewrite app_nil_r.
    repeat split; [|done..].
    unfold os_mkdir. rewrite Hloc, (is_dir_directory _ _ _ Hloc), Hanchor.
    unfold is_directory in Hanchor. by destruct (nodes w !! _) as [[|f]|].
  - set (p := Pathlib.MkPath r (names ++ [name])).
    set (q := Pathlib.MkPath r names).
    apply plain_snoc in Hplain as Hsn. destruct Hsn as [Hplain' Hname].
    assert (anchor w p = anchor w q) as Ha by done.
    assert (place w p = place w q ++ [name]) as Hplace
      by (unfold place; simpl; by rewrite app_assoc).
    assert (is_regular w (place w p) = false) as Hfree.
    { unfold place. rewrite <-(firstn_all (Pathlib.parts p)). by apply Hway. }
    assert (∀ k, (k ≤ length names)%nat →
              is_regular w (anchor w q ++ take k names) = false) as Hway'.
    { intros k Hk. rewrite <-(take_app_le names [name]) by done.
      apply Hway. rewrite length_app. lia. }
    assert (∀ w1, resolve w1 q = Ok (place w q) →
              is_directory w1 (place w q) = true →
              resolve w1 p = Ok (place w p)) as Hstep.
    { intros w1 Hq Hdir.
      assert (resolve w1 p = step w1 (resolve w1 q) name) as -> by apply resolve_snoc.
      rewrite Hq, step_Ok.
      unfold is_directory in Hdir.
      destruct (nodes w1 !! place w q) as [[|f]|]; try done.
      by rewrite Hname, Hplace. }
    assert (∀ w1, resolve w1 p = Ok (place w p) →
              is_regular w1 (place w p) = false →
              (∀ loc, (length (place w q) < length loc)%nat →
                      nodes w1 !! loc = nodes w !! loc) →
              ∀ rest : result () * world,
              ∃ w',
                match os_mkdir p w1 with
                | (Ok _, w') => (Ok (), w')
                | (Raise FileNotFoundError, _) => rest
                | (Raise e, _) => if is_dir p w1 then (Ok (), w1) else (Raise e, w1)
                end = (Ok (), w') ∧
                resolve w' p = Ok (place w p) ∧
                is_directory w' (place w p) = true ∧
                (∀ loc, (length (place w p) < length loc)%nat →
                        nodes w' !! loc = nodes w !! loc)) as Hmake.
    { intros w1 Hp Hreg Hsame rest.
      assert (∀ loc, (length (place w p) < length loc)%nat →
                nodes w1 !! loc = nodes w !! loc) as Hsame'.
      { intros loc Hlen. apply Hsame. rewrite Hplace, length_app in Hlen.
        cbn [length] in Hlen. lia. }
      destruct (os_mkdir_there _ _ _ Hp Hreg) as [[-> Hnone]|[-> Hdir]].
      - destruct (set_directory_spec _ _ _ Hp Hnone) as (Hp' & Hdir & Hother).
        eexists. repeat split; [done..|].
        intros loc Hlen. rewrite Hother; [by apply Hsame'|].
        intros ->. lia.
      - rewrite Hdir. exists w1. repeat split; [done| |done].
        by rewrite <-(is_dir_directory _ _ _ Hp). }
    rewrite length_app, Nat.add_1_r. cbn [mkdir_parents]. fold p.
    assert (Pathlib.parent p = q) as -> by apply parent_snoc.
    destruct (resolve w q) as [l|e] eqn:Hq.
    + apply resolve_plain in Hq as Hl; [|done]. subst l.
      destruct (is_directory w (place w q)) eqn:Hdir.
      * apply (Hmake w); [by apply Hstep|done|done].
      * assert (os_mkdir p w = (Raise FileNotFoundError, w)) as ->.
        { unfold os_mkdir.
          assert (resolve w p = step w (resolve w q) name) as -> by apply resolve_snoc.
          rewrite Hq, step_Ok.
          pose proof (Hway' (length names) (le_n _)) as Hreg.
          rewrite firstn_all in Hreg.
          change (anchor w q ++ names) with (place w q) in Hreg.
          unfold is_directory, is_regular in *.
          by destruct (nodes w !! place w q) as [[|f]|]. }
        destruct (IH w Hplain' Hanchor Hway') as (w1 & Hpar & Hq1 & Hdir1 & Hsame1).
        fold q in Hpar, Hq1. rewrite Hpar.
        apply (Hmake w1 (Hstep _ Hq1 Hdir1)); [|done].
        unfold is_regular in *. rewrite Hsame1; [done|].
        rewrite Hplace, length_app. cbn [length]. fold q. lia.
    + assert (e = FileNotFoundError) as -> by by eapply (resolve_plain_raise w r names).
      assert (os_mkdir p w = (Raise FileNotFoundError, w)) as ->.
      { unfold os_mkdir.
        assert (resolve w p = step w (resolve w q) name) as -> by apply resolve_snoc.
        by rewrite Hq. }
      destruct (IH w Hplain' Hanchor Hway') as (w1 & Hpar & Hq1 & Hdir1 & Hsame1).
      fold q in Hpar, Hq1. rewrite Hpar.
      apply (Hmake w1 (Hstep _ Hq1 Hdir1)); [|done].
      unfold is_regular in *. rewrite Hsame1; [done|].
      rewrite Hplace, length_app. cbn [length]. fold q. lia.
Qed.

Lemma can_make_way w p :
  can_make w p = true →
  plain p = true ∧ is_directory w (anchor w p) = true ∧
  ∀ k, (k ≤ length (Pathlib.parts p))%nat →
       is_regular w (anchor w p ++ take k (Pathlib.parts p)) = false.
Proof.
  unfold can_make. rewrite !andb_true_iff, forallb_forall.
  intros [[Hplain Hanchor] Hway]. repeat split; [done..|]. intros [|k] Hk.
  - rewrite take_0, app_nil_r. unfold is_directory, is_regular in *.
    by destruct (nodes w !! anchor w p) as [[|f]|].
  - apply negb_true_iff, Hway, list_elem_of_In.
    apply (list_elem_of_fmap_2 (λ k, anchor w p ++ take k (Pathlib.parts p))).
    apply elem_of_seq. lia.
Qed.

(** [mkdir] makes the directory that can be made and the ones above it, and
    touches nothing further down. *)
Lemma mkdir_can_make w p :
  can_make w p = true →
  ∃ w',
    mkdir p w = (Ok (), w') ∧
    grows w w' ∧
    resolve w' p = Ok (place w p) ∧
    is_directory w' (place w p) = true ∧
    (∀ loc, (length (place w p) < length loc)%nat → nodes w' !! loc = nodes w !! loc).
Proof.
  intros (Hplain & Hanchor & Hway)%can_make_way. destruct p as [r names].
  destruct (mkdir_parents_plain w r names Hplain Hanchor Hway)
    as (w' & Hmk & Hrest).
  exists w'. split; [done|]. split; [by apply (mkdir_parents_grows _ _ _ _ _ Hmk)|done].
Qed.

(** ** Reading and writing *)

Lemma file_at_load w p data :
  file_at w p = Some (Document data) ↔ load p w = Ok data.
Proof.
  unfold file_at, load. destruct (stat w p) as [[|[doc|]]|e]; simpl; naive_solver.
Qed.

Lemma load_exists w p data : load p w = Ok data → path_exists p w = true.
Proof. unfold load, path_exists. by destruct (stat w p). Qed.

Lemma write_text_inv p f w r w' :
  write_text p f w = (r, w') →
  (∃ e, r = Raise e ∧ w' = w) ∨
  (∃ loc, r = Ok () ∧ resolve w p = Ok loc ∧ is_directory w loc = false ∧
          w' = set_node loc (Regular f) w).
Proof.
  unfold write_text, is_directory.
  destruct (resolve w p) as [loc|e]; [|intros [= <- <-]; eauto].
  destruct (nodes w !! loc) as [[|f']|] eqn:Hloc; intros [= <- <-];
    [by eauto|right; exists loc; by rewrite Hloc..].
Qed.

Lemma write_text_ok p f w loc :
  resolve w p = Ok loc → is_directory w loc = false →
  write_text p f w = (Ok (), set_node loc (Regular f) w).
Proof.
  unfold write_text, is_directory. intros ->.
  by destruct (nodes w !! loc) as [[|f']|].
Qed.

(** After the write the path leads to the file written, and the other
    locations hold what they held. *)
Lemma set_regular_spec p f w loc :
  resolve w p = Ok loc → is_directory w loc = false →
  resolve (set_node loc (Regular f) w) p = Ok loc ∧
  file_at (set_node loc (Regular f) w) p = Some f ∧
  files (set_node loc (Regular f) w) = <[loc := f]> (files w).
Proof.
  intros Hloc Hdir.
  assert (resolve (set_node loc (Regular f) w) p = Ok loc) as Hloc'.
  { apply (resolve_dirs w); [done| |done]. intros l Hl. simpl.
    rewrite lookup_insert_ne; [done|]. intros ->.
    unfold is_directory in Hdir. by rewrite Hl in Hdir. }
  split; [done|]. split.
  - unfold file_at, stat. rewrite Hloc'. simpl. by rewrite lookup_insert_eq.
  - unfold files. simpl. by apply omap_insert_Some.
Qed.

(** A path in a directory that is there, and not a directory itself, can be
    written. *)
Lemma resolve_in_dir p w :
  is_dir (Pathlib.parent p) w = true → is_dir p w = false →
  ∃ loc, resolve w p = Ok loc ∧ is_directory w loc = false.
Proof.
  destruct p as [r names]. destruct names as [|name names _] using rev_ind.
  - unfold Pathlib.parent. simpl. congruence.
  - rewrite parent_snoc. intros Hparent Hp. unfold is_dir, stat in Hparent.
    destruct (resolve w (Pathlib.MkPath r names)) as [l|e] eqn:Hl; [|done].
    simpl in Hparent. destruct (nodes w !! l) as [[|f]|] eqn:Hnode; try done.
    eassert (resolve w (Pathlib.MkPath r (names ++ [name])) = Ok _) as Hloc
      by by rewrite resolve_snoc, Hl, step_Ok, Hnode.
    eexists. split; [done|]. by rewrite <-(is_dir_directory _ _ _ Hloc).
Qed.

Lemma select_top_issues_ok source target limit w data doc :
  load source w = Ok data →
  select_document data limit = Ok doc →
  select_top_issues source target limit w = write_text target (Document doc) w.
Proof.
  intros Hsrc Hdoc. unfold select_top_issues. rewrite Hsrc.
  change (Ok data ≫= _) with (select_document data limit). by rewrite Hdoc.
Qed.

Lemma select_top_issues_raise source target limit w data e :
  load source w = Ok data →
  select_document data limit = Raise e →
  select_top_issues source target limit w = (Raise e, w).
Proof.
  intros Hsrc Hdoc. unfold select_top_issues. rewrite Hsrc.
  change (Ok data ≫= _) with (select_document data limit). by rewrite Hdoc.
Qed.

Lemma select_top_issues_inv source target limit w r w' :
  select_top_issues source target limit w = (r, w') →
  (∃ e, r = Raise e ∧ w' = w) ∨
  (∃ data doc loc,
     r = Ok () ∧ load source w = Ok data ∧ select_document data limit = Ok doc ∧
     resolve w target = Ok loc ∧ is_directory w loc = false ∧
     w' = set_node loc (Regular (Document doc)) w).
Proof.
  unfold select_top_issues. destruct (load source w) as [data|e]; simpl;
    [|intros [= <- <-]; eauto].
  change (Ok data ≫= _) with (select_document data limit).
  destruct (select_document data limit) as [doc|e] eqn:Hdoc;
    [|intros [= <- <-]; eauto].
  intros [(e & -> & ->)|(loc & -> & Hloc & Hdir & ->)]%write_text_inv;
    [by eauto|].
  right. by exists data, doc, loc.
Qed.

(** ** Runs of the command *)

Lemma script_raise argv w e w' :
  main argv w = (Raise e, w') → script argv w = (1, print_err (report e) w').
Proof. intros Hmain. unfold script. by rewrite Hmain. Qed.

Lemma report_os_error e : os_error e = true → report e = traceback.
Proof. by destruct e. Qed.

(** What a run on an input path and an output path comes to. *)
Lemma main_inv prog input_yaml output_yaml w r w' :
  let source := Pathlib.Path input_yaml in
  let target := Pathlib.Path output_yaml in
  main [prog; input_yaml; output_yaml] w = (r, w') →
  path_exists source w = false ∧ r = Ok 1 ∧
    w' = print_err ("Input file not found: " +:+ Pathlib.str source) w ∨
  path_exists source w = true ∧
  ∃ r1 w1,
    mkdir (Pathlib.parent target) w = (r1, w1) ∧ grows w w1 ∧
    ((∃ e, r1 = Raise e ∧ r = Raise e ∧ w' = w1) ∨
     r1 = Ok () ∧
     ((∃ e, select_top_issues source target default_limit w1 = (Raise e, w1) ∧
            r = Raise e ∧ w' = w1) ∨
      (∃ data doc loc,
         load source w = Ok data ∧ select_document data default_limit = Ok doc ∧
         resolve w1 target = Ok loc ∧ is_directory w1 loc = false ∧
         r = Ok 0 ∧
         w' = print_out ("Top issues written to " +:+ Pathlib.str target)
                (set_node loc (Regular (Document doc)) w1)))).
Proof.
  simpl. unfold main.
  destruct (path_exists (Pathlib.Path input_yaml) w) eqn:Hsrc; simpl;
    [|intros [= <- <-]; by left].
  intros Hrun. right. split; [done|].
  destruct (mkdir (Pathlib.parent (Pathlib.Path output_yaml)) w) as [r1 w1] eqn:Hmk.
  exists r1, w1. split; [done|]. split; [by eapply mkdir_grows|].
  destruct r1 as [[]|e]; [|injection Hrun as <- <-; eauto].
  right. split; [done|].
  destruct (select_top_issues _ _ default_limit w1) as [r2 w2] eqn:Hsel.
  destruct (select_top_issues_inv _ _ _ _ _ _ Hsel)
    as [(e & -> & ->)|(data & doc & loc & -> & Hload & Hdoc & Hloc & Hdir & ->)].
  - injection Hrun as <- <-. left. eauto.
  - injection Hrun as <- <-. right. exists data, doc, loc.
    rewrite (grows_load w w1) in Hload; [done|by eapply mkdir_grows|done].
Qed.

(** Runs on the example checkout: a missing input is reported under the name
    that [pathlib] gives it; a file is written only in a directory that is
    there; [main] makes the directory of the output; another spelling of the
    input path as output path overwrites the input; a regular file in the
    place of the directory of the output ends the run. *)
Example missing_input_is_reported :
  script ["tools/select_top10.py"; "./missing.yaml"; "out.yaml"] Example.world0
  = (1, print_err "Input file not found: missing.yaml" Example.world0).
Proof. reflexivity. Qed.

Example write_needs_the_directory :
  select_top_issues (Pathlib.Path "backlog/issues.yaml")
    (Pathlib.Path "out/top10.yaml") 2 Example.world0
  = (Raise FileNotFoundError, Example.world0).
Proof. reflexivity. Qed.

Example main_makes_the_directory :
  ∃ w', script ["tools/select_top10.py"; "backlog/issues.yaml"; "out/new/top10.yaml"]
          Example.world0 = (0, w') ∧
        is_dir (Pathlib.Path "out/new") w' = true ∧
        file_at w' (Pathlib.Path "/repo/out/new/top10.yaml")
        = Some (Document (YMap [(YStr "issues",
                  YList [Example.issue3; Example.issue2; Example.issue1])])).
Proof. eexists. repeat split; reflexivity. Qed.

Example other_spelling_same_file :
  ∃ w', script ["tools/select_top10.py"; "backlog/issues.yaml";
                "./backlog/../backlog//issues.yaml"] Example.world0 = (0, w') ∧
        file_at w' (Pathlib.Path "backlog/issues.yaml")
        = Some (Document (YMap [(YStr "issues",
                  YList [Example.issue3; Example.issue2; Example.issue1])])) ∧
        stdout w' = ["Top issues written to backlog/../backlog/issues.yaml"].
Proof. eexists. repeat split; reflexivity. Qed.

Example file_in_the_way :
  script ["tools/select_top10.py"; "backlog/issues.yaml";
          "backlog/issues.yaml/top10.yaml"] Example.world0
  = (1, print_err traceback Example.world0) ∧
  main ["tools/select_top10.py"; "backlog/issues.yaml";
        "backlog/issues.yaml/top10.yaml"] Example.world0
  = (Raise FileExistsError, Example.world0).
Proof. split; reflexivity. Qed.

(** Every run of the script: status 1 with the regular files and standard
    output as they were, or status 0 with the selection written where the
    output path leads. *)
Lemma script_cases argv w :
  ∃ status w',
    script argv w = (status, w') ∧
    (status = 1 ∧ files w' = files w ∧ stdout w' = stdout w ∨
     status = 0 ∧
     ∃ prog input_yaml output_yaml data doc loc,
       argv = [prog; input_yaml; output_yaml] ∧
       load (Pathlib.Path input_yaml) w = Ok data ∧
       select_document data default_limit = Ok doc ∧
       resolve w' (Pathlib.Path output_yaml) = Ok loc ∧
       file_at w' (Pathlib.Path output_yaml) = Some (Document doc) ∧
       files w' = <[loc := Document doc]> (files w) ∧
       stdout w'
       = stdout w ++ ["Top issues written to "
                      +:+ Pathlib.str (Pathlib.Path output_yaml)] ∧
       stderr w' = stderr w).
Proof.
  destruct argv as [|prog [|input_yaml [|output_yaml [|]]]];
    try (eexists 1, _; split; [done|]; by left).
  destruct (main [prog; input_yaml; output_yaml] w) as [r w'] eqn:Hmain.
  destruct (main_inv _ _ _ _ _ _ Hmain)
    as [(_ & -> & ->)|(_ & r1 & w1 & _ & Hg & Hrun)].
  { unfold script. rewrite Hmain. eexists 1, _. split; [done|]. by left. }
  pose proof (grows_files _ _ Hg) as Hfiles.
  destruct Hg as (_ & Hout & Herr & _).
  destruct Hrun as [(e & _ & -> & ->)|[_ [(e & _ & -> & ->)|Hok]]].
  1, 2: rewrite (script_raise _ _ _ _ Hmain);
        eexists 1, _; (split; [done|]); left; by rewrite <-Hfiles, <-Hout.
  destruct Hok as (data & doc & loc & Hload & Hdoc & Hloc & Hdir & -> & ->).
  destruct (set_regular_spec _ (Document doc) _ _ Hloc Hdir) as (Hloc' & Hat & Hset).
  unfold script. rewrite Hmain. eexists 0, _. split; [done|]. right.
  split; [done|]. exists prog, input_yaml, output_yaml, data, doc, loc.
  repeat split; try done.
  - change (files (print_out ?l ?w)) with (files w). by rewrite Hset, Hfiles.
  - simpl. by rewrite Hout.
Qed.

(** With a clear way, [mkdir] makes the parent of the target, and the target
    can be written. *)
Lemma mkdir_clear_way w target :
  clear_way w target = true →
  ∃ w1,
    mkdir (Pathlib.parent target) w = (Ok (), w1) ∧
    grows w w1 ∧
    resolve w1 target = Ok (place w target) ∧
    is_directory w1 (place w target) = false.
Proof.
  unfold clear_way. rewrite !andb_true_iff, negb_true_iff.
  intros [[Hplain Hmake] Hfree].
  destruct (mkdir_can_make _ _ Hmake) as (w1 & Hmk & Hg & Hparent & Hdir & Hsame).
  exists w1. split; [done|]. split; [done|].
  apply can_make_way in Hmake as (_ & Hanchor & _).
  clear Hmk Hg. destruct target as [r names].
  destruct names as [|name names _] using rev_ind.
  - unfold Pathlib.parent, place, anchor in *. simpl in *.
    rewrite app_nil_r in *. congruence.
  - rewrite parent_snoc in *. apply plain_snoc in Hplain as [_ Hname].
    assert (place w (Pathlib.MkPath r (names ++ [name]))
            = place w (Pathlib.MkPath r names) ++ [name]) as Hplace
      by (unfold place; simpl; by rewrite app_assoc).
    split.
    + rewrite resolve_snoc, Hparent, step_Ok. unfold is_directory in Hdir.
      destruct (nodes w1 !! _) as [[|f]|]; try done. by rewrite Hname, Hplace.
    + unfold is_directory in *. rewrite Hsame; [done|].
      rewrite Hplace, length_app. simpl. lia.
Qed.

(** A run on an input that holds a document from which the selection
    succeeds, with a clear way to the output. *)
Lemma script_clear_way prog input_yaml output_yaml w data doc :
  let target := Pathlib.Path output_yaml in
  load (Pathlib.Path input_yaml) w = Ok data →
  select_document data default_limit = Ok doc →
  clear_way w target = true →
  ∃ w',
    script [prog; input_yaml; output_yaml] w = (0, w') ∧
    resolve w' target = Ok (place w target) ∧
    file_at w' target = Some (Document doc) ∧
    files w' = <[place w target := Document doc]> (files w) ∧
    stdout w' = stdout w ++ ["Top issues written to " +:+ Pathlib.str target] ∧
    stderr w' = stderr w.
Proof.
  simpl. intros Hload Hdoc Hclear.
  destruct (mkdir_clear_way _ _ Hclear) as (w1 & Hmk & Hg & Hloc & Hfree).
  destruct (set_regular_spec _ (Document doc) _ _ Hloc Hfree) as (Hloc' & Hat & Hset).
  eexists. split.
  - unfold script, main. rewrite (load_exists _ _ _ Hload). simpl. rewrite Hmk.
    rewrite (select_top_issues_ok _ _ _ _ data doc), (write_text_ok _ _ _ _ Hloc Hfree);
      [done|by rewrite (grows_load w w1) by eauto using load_exists|done].
  - repeat split; try done.
    + change (files (print_out ?l ?w)) with (files w).
      by rewrite Hset, (grows_files _ _ Hg).
    + simpl. by destruct Hg as (_ & -> & _).
    + simpl. by destruct Hg as (_ & _ & -> & _).
Qed.

(** * The claims *)

(** ** Length of the selection *)

(** C1: when the loaded document maps ['issues'] to a list of records,
    [limit] is not negative, and the directory of the target is there while
    the target is no directory itself, [select_top_issues] raises nothing and
    the file it leaves at the target is the document whose ['issues'] list is
    the slice [sorted_issues[:limit]] of the ranking.  That list has
    [min limit (len issues)] entries; with a limit of 0 it is empty. *)
Theorem select_top_issues_length source target limit w d issues :
  file_at w source = Some (Document (YMap d)) →
  dict_get d "issues" = Some (YList issues) →
  Forall (λ v, is_record v = true) issues →
  0 ≤ limit →
  is_dir (Pathlib.parent target) w = true →
  is_dir target w = false →
  ∃ ranked out w',
    sorted_issues issues = Ok ranked ∧
    out = slice_to ranked limit ∧
    select_top_issues source target limit w = (Ok (), w') ∧
    file_at w' target = Some (Document (YMap [(YStr "issues", YList out)])) ∧
    Z.of_nat (length out) = Z.min limit (Z.of_nat (length issues)) ∧
    (limit = 0 → out = []).
Proof.
  intros Hsrc%file_at_load Hd Hrec Hlimit Hparent Htarget.
  destruct (sorted_issues_spec issues Hrec)
    as (ranked & _ & Hs & _ & _ & Hperm & _).
  destruct (resolve_in_dir _ _ Hparent Htarget) as (loc & Hloc & Hfree).
  pose proof (select_document_issues d issues _ limit Hd Hs) as Hdoc.
  destruct (set_regular_spec _ (Document (YMap [(YStr "issues",
              YList (slice_to ranked.*2 limit))])) _ _ Hloc Hfree)
    as (_ & Hat & _).
  exists ranked.*2, (slice_to ranked.*2 limit). eexists.
  split; [done|]. split; [done|]. split; [|split; [done|split]].
  - rewrite (select_top_issues_ok _ _ _ _ _ _ Hsrc Hdoc).
    by apply write_text_ok.
  - rewrite slice_to_nonneg, length_take, (Permutation_length Hperm) by done. lia.
  - intros ->. by rewrite slice_to_nonneg.
Qed.

Lemma select_top_issues_length_witness :
  ∃ ranked out w',
    sorted_issues Example.issues = Ok ranked ∧
    out = slice_to ranked 2 ∧
    select_top_issues (Pathlib.Path "backlog/issues.yaml")
      (Pathlib.Path "backlog/top10.yaml") 2 Example.world0
    = (Ok (), w') ∧
    file_at w' (Pathlib.Path "backlog/top10.yaml")
    = Some (Document (YMap [(YStr "issues", YList out)])) ∧
    Z.of_nat (length out) = Z.min 2 (Z.of_nat (length Example.issues)) ∧
    ((2:Z) = 0 → out = []).
Proof.
  apply (select_top_issues_length _ _ 2 Example.world0
           [(YStr "issues", YList Example.issues)] Example.issues).
  - reflexivity.
  - reflexivity.
  - repeat constructor.
  - lia.
  - reflexivity.
  - reflexivity.
Defined.

(** ** The order of the ranking *)

Lemma rank_of_normalised x y :
  _normalise_priority x = _normalise_priority y →
  _normalise_impact x = _normalise_impact y →
  _normalise_estimate x = _normalise_estimate y →
  rank_of x = rank_of y.
Proof. intros Hp Hi He. unfold rank_of, _sort_key. by rewrite Hp, Hi, He. Qed.

(** The scores that the tables give are those of the specification. *)
Lemma order_scores p i e :
  order_score PRIORITY_ORDER p DEFAULT_PRIORITY = Spec.priority_score p ∧
  order_score IMPACT_ORDER i (Str.upper DEFAULT_IMPACT) = Spec.impact_score i ∧
  order_score ESTIMATE_ORDER e DEFAULT_ESTIMATE = Spec.estimate_score e.
Proof.
  unfold order_score, Spec.priority_score, Spec.impact_score, Spec.estimate_score.
  unfold PRIORITY_ORDER, IMPACT_ORDER, ESTIMATE_ORDER, DEFAULT_PRIORITY,
    DEFAULT_ESTIMATE. cbn -[String.eqb].
  rewrite !(String.eqb_sym p), !(String.eqb_sym i), !(String.eqb_sym e).
  repeat split; repeat (destruct (String.eqb _ _); [done|]); done.
Qed.







(** ** Ranking twice *)

Lemma take_StronglySorted {A} (R : relation A) (l : list A) n :
  StronglySorted R l → StronglySorted R (take n l).
Proof.
  intros Hl. rewrite <-(take_drop n l) in Hl. by apply StronglySorted_app_1_l in Hl.
Qed.

(** C6: on a document of records and a limit that is not negative, the
    selection succeeds, and selecting from the document it returns, with the
    same limit, returns that document again. *)
Theorem selection_idempotent d issues limit :
  dict_get d "issues" = Some (YList issues) →
  Forall (λ v, is_record v = true) issues →
  0 ≤ limit →
  ∃ doc,
    select_document (YMap d) limit = Ok doc ∧
    select_document doc limit = Ok doc.
Proof.
  intros Hd Hrec Hlimit.
  destruct (sorted_issues_spec issues Hrec)
    as (ranked & _ & Hs & _ & _ & Hperm & Hsorted).
  eexists. split; [by apply (select_document_issues d issues)|].
  rewrite slice_to_nonneg by done.
  erewrite (select_document_issues _ (take (Z.to_nat limit) ranked.*2)); [|done|].
  - rewrite slice_to_nonneg, take_take by done. by rewrite Nat.min_id.
  - apply sorted_issues_id; [|by apply take_StronglySorted].
    apply Forall_take. by rewrite Hperm.
Qed.

Lemma selection_idempotent_witness :
  ∃ doc,
    select_document Example.backlog 2 = Ok doc ∧
    select_document doc 2 = Ok doc.
Proof.
  apply (selection_idempotent [(YStr "issues", YList Example.issues)] Example.issues 2).
  - reflexivity.
  - repeat constructor.
  - lia.
Defined.

(** ** Records pass through *)

(** C7: every record of the selection is a record of the input, with all of
    its fields as they were: the selected list, followed by the records that
    were cut off, is a rearrangement of the input list, and the functions
    that look at a record return strings and numbers only. *)
Theorem selection_passes_records_through d issues limit :
  dict_get d "issues" = Some (YList issues) →
  Forall (λ v, is_record v = true) issues →
  ∃ out,
    select_document (YMap d) limit = Ok (YMap [(YStr "issues", YList out)]) ∧
    (∃ rest, out ++ rest ≡ₚ issues) ∧
    (∀ x, x ∈ out → x ∈ issues).
Proof.
  intros Hd Hrec.
  destruct (sorted_issues_spec issues Hrec)
    as (ranked & _ & Hs & _ & _ & Hperm & _).
  exists (slice_to ranked.*2 limit).
  split; [by apply (select_document_issues d issues)|].
  destruct (slice_to_prefix ranked.*2 limit) as [rest Hrest].
  split.
  - exists rest. by rewrite <-Hrest.
  - intros x Hx. rewrite <-Hperm, Hrest. apply elem_of_app; by left.
Qed.

Lemma selection_passes_records_through_witness :
  ∃ out,
    select_document Example.backlog 2 = Ok (YMap [(YStr "issues", YList out)]) ∧
    (∃ rest, out ++ rest ≡ₚ Example.issues) ∧
    (∀ x, x ∈ out → x ∈ Example.issues).
Proof.
  apply (selection_passes_records_through
           [(YStr "issues", YList Example.issues)] Example.issues 2).
  - reflexivity.
  - repeat constructor.
Defined.

(** ** A negative limit *)

(** C9: with [n] records and a limit [-k], [0 < k < n], the selection is
    neither refused nor empty: it is the first [n - k] records of the whole
    sorted list. *)
Theorem negative_limit_drops_tail d issues k :
  dict_get d "issues" = Some (YList issues) →
  Forall (λ v, is_record v = true) issues →
  0 < k < Z.of_nat (length issues) →
  ∃ ranked,
    sorted_issues issues = Ok ranked ∧
    length ranked = length issues ∧
    select_document (YMap d) (- k)
    = Ok (YMap [(YStr "issues", YList (take (length issues - Z.to_nat k) ranked))]) ∧
    length (take (length issues - Z.to_nat k) ranked)
    = (length issues - Z.to_nat k)%nat ∧
    take (length issues - Z.to_nat k) ranked ≠ [].
Proof.
  intros Hd Hrec Hk.
  destruct (sorted_issues_spec issues Hrec)
    as (ranked & _ & Hs & _ & _ & Hperm & _).
  pose proof (Permutation_length Hperm) as Hlen.
  exists ranked.*2. repeat (split; [done|]).
  assert (length (take (length issues - Z.to_nat k) ranked.*2)
          = (length issues - Z.to_nat k)%nat) as Htake
    by (rewrite length_take; lia).
  split; [|split; [done|]].
  - rewrite (select_document_issues d issues _ _ Hd Hs). unfold slice_to.
    destruct (Z.ltb_spec (- k) 0); [|lia].
    by replace (Z.to_nat (Z.max 0 (Z.of_nat (length ranked.*2) + - k)))
      with (length issues - Z.to_nat k)%nat by lia.
  - intros Hnil. rewrite Hnil in Htake. simpl in Htake. lia.
Qed.

Lemma negative_limit_drops_tail_witness :
  ∃ ranked,
    sorted_issues Example.issues = Ok ranked ∧
    length ranked = length Example.issues ∧
    select_document Example.backlog (- 1)
    = Ok (YMap [(YStr "issues",
                 YList (take (length Example.issues - Z.to_nat 1) ranked))]) ∧
    length (take (length Example.issues - Z.to_nat 1) ranked)
    = (length Example.issues - Z.to_nat 1)%nat ∧
    take (length Example.issues - Z.to_nat 1) ranked ≠ [].
Proof.
  apply (negative_limit_drops_tail
           [(YStr "issues", YList Example.issues)] Example.issues 1).
  - reflexivity.
  - repeat constructor.
  - simpl. lia.
Defined.

(** ** Normalisation *)

Lemma split1_spec sep s before after :
  Str.split1 sep s = [before; after] →
  s = before +:+ String sep after ∧ Str.mem_char sep before = false.
Proof.
  revert before. induction s as [|c s IH]; intros before; simpl; [done|].
  destruct (Ascii.eqb_spec c sep) as [->|Hc].
  - by intros [= <- <-].
  - destruct (Str.split1 sep s) as [|h t] eqn:Hs; [done|].
    intros [= <- ->]. destruct (IH h eq_refl) as [-> Hh]. simpl.
    split; [done|]. rewrite Hh. by destruct (Ascii.eqb_spec c sep).
Qed.

Lemma scan_labels_skip prefix pre rest :
  Forall (λ v, label_matches prefix v = false) pre →
  scan_labels prefix (pre ++ rest) = scan_labels prefix rest.
Proof.
  induction 1 as [|v pre Hv _ IH]; simpl; [done|].
  destruct v; simpl in *; try done. by rewrite Hv.
Qed.

Lemma scan_labels_miss prefix labels :
  Forall (λ v, label_matches prefix v = false) labels →
  scan_labels prefix labels = Ok None.
Proof.
  intros Hl. by rewrite <-(app_nil_r labels), (scan_labels_skip _ _ _ Hl).
Qed.

(** The scan stops at the first label that matches and returns what follows
    the first colon of that label, in upper case. *)
Lemma scan_labels_hit prefix pre label post :
  Str.mem_char ":" prefix = true →
  Forall (λ v, label_matches prefix v = false) pre →
  Str.startswith (Str.lower label) prefix = true →
  ∃ before after,
    label = before +:+ ":" +:+ after ∧ Str.mem_char ":" before = false ∧
    scan_labels prefix (pre ++ YStr label :: post) = Ok (Some (Str.upper after)).
Proof.
  intros Hp Hpre Hl.
  destruct (StrFacts.startswith_lower_split _ _ Hp Hl) as (before & after & Hs).
  exists before, after. destruct (split1_spec _ _ _ _ Hs) as [-> Hb].
  repeat (split; [done|]).
  rewrite (scan_labels_skip _ _ _ Hpre); simpl. by rewrite Hl, Hs.
Qed.

Lemma scan_labels_filter prefix labels :
  scan_labels prefix (List.filter is_str labels) = scan_labels prefix labels.
Proof.
  induction labels as [|[] rest IH]; simpl; try done. by rewrite IH.
Qed.

Lemma is_str_no_match prefix (pre : list yaml) :
  Forall (λ v, is_str v = false) pre →
  Forall (λ v, label_matches prefix v = false) pre.
Proof. intros Hpre. eapply Forall_impl; [exact Hpre|]. by intros []. Qed.

Lemma is_record_labels d v :
  dict_get d "labels" = Some v →
  match v with YNull | YList _ => True | _ => False end →
  is_record (YMap d) = true ∧
  record_labels d = match v with YList labels => labels | _ => [] end.
Proof.
  unfold is_record, scannable, record_labels, labels_of; simpl. intros ->.
  by destruct v as [| | | |[]|].
Qed.

Lemma normalise_priority_labels d :
  is_record (YMap d) = true →
  (∀ s, dict_get d "priority" ≠ Some (YStr s)) →
  _normalise_priority (YMap d)
  = default "P3" <$> scan_labels "priority:" (record_labels d).
Proof.
  intros Hrec Hp. rewrite (normalise_priority_record d Hrec).
  destruct (dict_get d "priority") as [[]|]; try done. by destruct (Hp s).
Qed.

Lemma normalise_impact_labels d :
  is_record (YMap d) = true →
  (∀ s, dict_get d "impact" ≠ Some (YStr s)) →
  _normalise_impact (YMap d)
  = default "LOW" <$> scan_labels "impact:" (record_labels d).
Proof.
  intros Hrec Hp. rewrite (normalise_impact_record d Hrec).
  destruct (dict_get d "impact") as [[]|]; try done. by destruct (Hp s).
Qed.

(** C3: each of priority, impact and estimate is normalised on its own.
    (1) A field that is a string is used in upper case, whatever it spells.
    (2) Otherwise, for priority and impact, the first label that is a string
    whose lower-cased form starts with ["priority:"] (["impact:"]) decides:
    the text after its first colon, in upper case.  (3) Otherwise the result
    is P3, LOW, M; the estimate never looks at the labels.  (4) The key
    scores the three normalised values as the specification's tables do, a
    value outside a table scoring 1 (priority), 1 (impact), 3 (estimate). *)
Theorem normalisation_precedence d :
  (∀ s, dict_get d "priority" = Some (YStr s) →
        _normalise_priority (YMap d) = Ok (Str.upper s)) ∧
  (∀ s, dict_get d "impact" = Some (YStr s) →
        _normalise_impact (YMap d) = Ok (Str.upper s)) ∧
  (∀ s, dict_get d "estimate" = Some (YStr s) →
        _normalise_estimate (YMap d) = Ok (Str.upper s)) ∧
  (∀ pre label post,
     (∀ s, dict_get d "priority" ≠ Some (YStr s)) →
     dict_get d "labels" = Some (YList (pre ++ YStr label :: post)) →
     Forall (λ v, label_matches "priority:" v = false) pre →
     Str.startswith (Str.lower label) "priority:" = true →
     ∃ before after,
       label = before +:+ ":" +:+ after ∧ Str.mem_char ":" before = false ∧
       _normalise_priority (YMap d) = Ok (Str.upper after)) ∧
  (∀ pre label post,
     (∀ s, dict_get d "impact" ≠ Some (YStr s)) →
     dict_get d "labels" = Some (YList (pre ++ YStr label :: post)) →
     Forall (λ v, label_matches "impact:" v = false) pre →
     Str.startswith (Str.lower label) "impact:" = true →
     ∃ before after,
       label = before +:+ ":" +:+ after ∧ Str.mem_char ":" before = false ∧
       _normalise_impact (YMap d) = Ok (Str.upper after)) ∧
  (is_record (YMap d) = true →
   (∀ s, dict_get d "priority" ≠ Some (YStr s)) →
   Forall (λ v, label_matches "priority:" v = false) (record_labels d) →
   _normalise_priority (YMap d) = Ok "P3") ∧
  (is_record (YMap d) = true →
   (∀ s, dict_get d "impact" ≠ Some (YStr s)) →
   Forall (λ v, label_matches "impact:" v = false) (record_labels d) →
   _normalise_impact (YMap d) = Ok "LOW") ∧
  ((∀ s, dict_get d "estimate" ≠ Some (YStr s)) →
   _normalise_estimate (YMap d) = Ok "M") ∧
  (∀ p i e index,
     _normalise_priority (YMap d) = Ok p →
     _normalise_impact (YMap d) = Ok i →
     _normalise_estimate (YMap d) = Ok e →
     _sort_key (YMap d) index
     = Ok (- Spec.priority_score p, - Spec.impact_score i,
           Spec.estimate_score e, index)).
Proof.
  repeat apply conj.
  - intros s Hs. unfold _normalise_priority; simpl. by rewrite Hs.
  - intros s Hs. unfold _normalise_impact; simpl. by rewrite Hs.
  - intros s Hs. unfold _normalise_estimate; simpl. by rewrite Hs.
  - intros pre label post Hp Hl Hpre Hlabel.
    destruct (is_record_labels d _ Hl I) as [Hrec Hlabels].
    destruct (scan_labels_hit "priority:" pre label post eq_refl Hpre Hlabel)
      as (before & after & Heq & Hb & Hscan).
    exists before, after. repeat (split; [done|]).
    by rewrite (normalise_priority_labels d Hrec Hp), Hlabels, Hscan.
  - intros pre label post Hp Hl Hpre Hlabel.
    destruct (is_record_labels d _ Hl I) as [Hrec Hlabels].
    destruct (scan_labels_hit "impact:" pre label post eq_refl Hpre Hlabel)
      as (before & after & Heq & Hb & Hscan).
    exists before, after. repeat (split; [done|]).
    by rewrite (normalise_impact_labels d Hrec Hp), Hlabels, Hscan.
  - intros Hrec Hp Hl.
    by rewrite (normalise_priority_labels d Hrec Hp), (scan_labels_miss _ _ Hl).
  - intros Hrec Hp Hl.
    by rewrite (normalise_impact_labels d Hrec Hp), (scan_labels_miss _ _ Hl).
  - intros He. rewrite normalise_estimate_record.
    destruct (dict_get d "estimate") as [[]|]; try done. by destruct (He s).
  - intros p i e index Hp Hi He. unfold _sort_key. rewrite Hp, Hi, He; simpl.
    destruct (order_scores p i e) as (-> & -> & ->). done.
Qed.

Lemma normalisation_precedence_witness :
  ∃ before after,
    "Priority:p2" = before +:+ ":" +:+ after ∧ Str.mem_char ":" before = false ∧
    _normalise_priority Example.issue4 = Ok (Str.upper after).
Proof.
  destruct (normalisation_precedence
              [(YStr "id", YInt 4); (YStr "title", YStr "Login fails");
               (YStr "labels",
                YList [YNull; YInt 7; YStr "bug"; YStr "Priority:p2";
                       YStr "impact:Medium"; YStr "priority:P1"]);
               (YStr "estimate", YStr "xs")])
    as (_ & _ & _ & Hlabel & _).
  apply (Hlabel [YNull; YInt 7; YStr "bug"] "Priority:p2"
           [YStr "impact:Medium"; YStr "priority:P1"]).
  - intros s. discriminate.
  - reflexivity.
  - repeat constructor.
  - reflexivity.
Defined.

(** ** Labels that are null or hold other things than strings *)

(** C10: a [labels] field that is null gives what an empty list gives, the
    defaults; entries of [labels] that are not strings are skipped, so that
    the record normalises as it does without them and the first string label
    with the prefix decides; and no exception is raised in either case. *)
Theorem labels_null_and_non_strings d :
  ((dict_get d "labels" = Some YNull ∨ dict_get d "labels" = Some (YList [])) →
   ((∀ s, dict_get d "priority" ≠ Some (YStr s)) →
    _normalise_priority (YMap d) = Ok "P3") ∧
   ((∀ s, dict_get d "impact" ≠ Some (YStr s)) →
    _normalise_impact (YMap d) = Ok "LOW")) ∧
  (∀ labels,
     dict_get d "labels" = Some (YList labels) →
     (∃ p i,
        _normalise_priority (YMap d) = Ok p ∧ _normalise_impact (YMap d) = Ok i) ∧
     (∀ d',
        dict_get d' "labels" = Some (YList (List.filter is_str labels)) →
        dict_get d' "priority" = dict_get d "priority" →
        dict_get d' "impact" = dict_get d "impact" →
        _normalise_priority (YMap d') = _normalise_priority (YMap d) ∧
        _normalise_impact (YMap d') = _normalise_impact (YMap d))) ∧
  (∀ pre label post,
     dict_get d "labels" = Some (YList (pre ++ YStr label :: post)) →
     Forall (λ v, is_str v = false) pre →
     ((∀ s, dict_get d "priority" ≠ Some (YStr s)) →
      Str.startswith (Str.lower label) "priority:" = true →
      ∃ before after,
        label = before +:+ ":" +:+ after ∧ Str.mem_char ":" before = false ∧
        _normalise_priority (YMap d) = Ok (Str.upper after)) ∧
     ((∀ s, dict_get d "impact" ≠ Some (YStr s)) →
      Str.startswith (Str.lower label) "impact:" = true →
      ∃ before after,
        label = before +:+ ":" +:+ after ∧ Str.mem_char ":" before = false ∧
        _normalise_impact (YMap d) = Ok (Str.upper after))).
Proof.
  repeat apply conj.
  - intros Hl.
    assert (is_record (YMap d) = true ∧ record_labels d = []) as [Hrec Hlabels].
    { destruct Hl as [Hl|Hl]; by destruct (is_record_labels d _ Hl I). }
    split; intros Hp.
    + by rewrite (normalise_priority_labels d Hrec Hp), Hlabels.
    + by rewrite (normalise_impact_labels d Hrec Hp), Hlabels.
  - intros labels Hl. destruct (is_record_labels d _ Hl I) as [Hrec Hlabels].
    split.
    + rewrite (normalise_priority_record d Hrec), (normalise_impact_record d Hrec).
      destruct (scan_labels_ok "priority:" (record_labels d) eq_refl) as [fp ->].
      destruct (scan_labels_ok "impact:" (record_labels d) eq_refl) as [fi ->].
      destruct (dict_get d "priority") as [[]|], (dict_get d "impact") as [[]|];
        simpl; eauto.
    + intros d' Hl' Hp Hi.
      destruct (is_record_labels d' _ Hl' I) as [Hrec' Hlabels'].
      rewrite (normalise_priority_record d Hrec), (normalise_impact_record d Hrec),
        (normalise_priority_record d' Hrec'), (normalise_impact_record d' Hrec').
      by rewrite Hp, Hi, Hlabels, Hlabels', !scan_labels_filter.
  - intros pre label post Hl Hpre.
    destruct (is_record_labels d _ Hl I) as [Hrec Hlabels].
    split; intros Hp Hlabel.
    + destruct (scan_labels_hit "priority:" pre label post eq_refl
                  (is_str_no_match _ _ Hpre) Hlabel)
        as (before & after & Heq & Hb & Hscan).
      exists before, after. repeat (split; [done|]).
      by rewrite (normalise_priority_labels d Hrec Hp), Hlabels, Hscan.
    + destruct (scan_labels_hit "impact:" pre label post eq_refl
                  (is_str_no_match _ _ Hpre) Hlabel)
        as (before & after & Heq & Hb & Hscan).
      exists before, after. repeat (split; [done|]).
      by rewrite (normalise_impact_labels d Hrec Hp), Hlabels, Hscan.
Qed.

Lemma labels_null_and_non_strings_witness :
  _normalise_priority
    (YMap [(YStr "id", YInt 4);
           (YStr "labels", YList [YStr "bug"; YStr "Priority:p2"; YStr "impact:Medium"])])
  = _normalise_priority
      (YMap [(YStr "id", YInt 4);
             (YStr "labels",
              YList [YNull; YStr "bug"; YInt 7; YStr "Priority:p2"; YInt 0;
                     YStr "impact:Medium"])]) ∧
  _normalise_impact
    (YMap [(YStr "id", YInt 4);
           (YStr "labels", YList [YStr "bug"; YStr "Priority:p2"; YStr "impact:Medium"])])
  = _normalise_impact
      (YMap [(YStr "id", YInt 4);
             (YStr "labels",
              YList [YNull; YStr "bug"; YInt 7; YStr "Priority:p2"; YInt 0;
                     YStr "impact:Medium"])]).
Proof.
  destruct (labels_null_and_non_strings
              [(YStr "id", YInt 4);
               (YStr "labels",
                YList [YNull; YStr "bug"; YInt 7; YStr "Priority:p2"; YInt 0;
                       YStr "impact:Medium"])])
    as (_ & Hfilter & _).
  destruct (Hfilter _ eq_refl) as [_ Hsame].
  apply Hsame; reflexivity.
Defined.

(** ** A document of the wrong shape *)

(** A run on an input whose selection raises: status 1, the regular files
    and standard output as they were, and one line on standard error: the
    report of the exception when the directory of the output could be made,
    and the traceback of the error of [mkdir] when it could not. *)
Lemma script_select_raises prog input_yaml output_yaml w data e :
  load (Pathlib.Path input_yaml) w = Ok data →
  select_document data default_limit = Raise e →
  ∃ w',
    script [prog; input_yaml; output_yaml] w = (1, w') ∧
    files w' = files w ∧
    stdout w' = stdout w ∧
    stderr w'
    = stderr w ++ [match (mkdir (Pathlib.parent (Pathlib.Path output_yaml)) w).1 with
                   | Ok _ => report e
                   | Raise _ => traceback
                   end].
Proof.
  intros Hload Hdoc.
  destruct (main [prog; input_yaml; output_yaml] w) as [r w'] eqn:Hmain.
  assert (∃ e', r = Raise e' ∧ grows w w' ∧
            report e' = match (mkdir (Pathlib.parent (Pathlib.Path output_yaml)) w).1 with
                        | Ok _ => report e
                        | Raise _ => traceback
                        end) as (e' & -> & Hg & <-).
  { unfold main in Hmain. rewrite (load_exists _ _ _ Hload) in Hmain. simpl in Hmain.
    destruct (mkdir (Pathlib.parent (Pathlib.Path output_yaml)) w)
      as [[[]|e1] w1] eqn:Hmk; pose proof (mkdir_grows _ _ _ _ Hmk) as Hg.
    - rewrite (select_top_issues_raise _ _ _ _ data e) in Hmain;
        [|by rewrite (grows_load w w1) by eauto using load_exists|done].
      injection Hmain as <- <-. eauto.
    - injection Hmain as <- <-. exists e1. split; [done|]. split; [done|].
      by eapply report_os_error, mkdir_os_error. }
  rewrite (script_raise _ _ _ _ Hmain). eexists. split; [done|].
  rewrite <-(grows_files _ _ Hg). destruct Hg as (_ & Hout & Herr & _).
  simpl. by rewrite Herr.
Qed.

(** C4: when the loaded document is not a mapping, or has no ['issues']
    key, or maps ['issues'] to something that is not a list,
    [select_top_issues] raises [SystemExit] with a message and leaves the
    world as it was; the script then ends with status 1 and the same regular
    files as before the run: no output document is written, in whole or in
    part.  On standard error it leaves the message of [SystemExit], or, when
    the directory of the output could not be made, the traceback of the error
    that [mkdir] raised before the input was read. *)
Theorem malformed_document_is_fatal source target limit w data :
  file_at w source = Some (Document data) →
  ((∀ d, data ≠ YMap d) ∨
   (∃ d, data = YMap d ∧ dict_get d "issues" = None) ∨
   (∃ d v, data = YMap d ∧ dict_get d "issues" = Some v ∧ ∀ l, v ≠ YList l)) →
  ∃ msg,
    select_top_issues source target limit w = (Raise (SystemExit msg), w) ∧
    ∀ prog input_yaml output_yaml,
      Pathlib.Path input_yaml = source →
      Pathlib.Path output_yaml = target →
      ∃ status w',
        script [prog; input_yaml; output_yaml] w = (status, w') ∧
        status ≠ 0 ∧
        files w' = files w ∧
        stdout w' = stdout w ∧
        stderr w'
        = stderr w ++ [match (mkdir (Pathlib.parent target) w).1 with
                       | Ok _ => msg
                       | Raise _ => traceback
                       end].
Proof.
  intros Hsrc%file_at_load Hshape.
  assert (∃ msg, ∀ lim, select_document data lim = Raise (SystemExit msg))
    as [msg Hdoc].
  { destruct Hshape as [Hd|[(d & -> & Hd)|(d & v & -> & Hd & Hv)]].
    - destruct data; try (by eexists); by destruct (Hd entries).
    - eexists. intros lim. unfold select_document. by rewrite Hd.
    - unfold select_document. rewrite Hd.
      destruct v; try (by eexists); by destruct (Hv items). }
  exists msg. split; [by apply (select_top_issues_raise _ _ _ _ data)|].
  intros prog input_yaml output_yaml <- <-.
  destruct (script_select_raises prog input_yaml output_yaml w data _ Hsrc (Hdoc _))
    as (w' & Hrun & Hfiles & Hout & Herr).
  by exists 1, w'.
Qed.

Lemma malformed_document_is_fatal_witness :
  ∃ msg,
    select_top_issues (Pathlib.Path "backlog/issues.yaml")
      (Pathlib.Path "backlog/top10.yaml") 10 Example.world_malformed
    = (Raise (SystemExit msg), Example.world_malformed) ∧
    ∃ status w',
      script ["tools/select_top10.py"; "backlog/issues.yaml"; "backlog/top10.yaml"]
        Example.world_malformed
      = (status, w') ∧
      status ≠ 0 ∧
      files w' = files Example.world_malformed ∧
      stdout w' = stdout Example.world_malformed ∧
      stderr w' = stderr Example.world_malformed ++ [msg].
Proof.
  destruct (malformed_document_is_fatal
              (Pathlib.Path "backlog/issues.yaml") (Pathlib.Path "backlog/top10.yaml")
              10 Example.world_malformed (YMap []))
    as (msg & Hsel & Hrun).
  - reflexivity.
  - right; left. exists []. split; reflexivity.
  - exists msg. split; [exact Hsel|].
    destruct (Hrun "tools/select_top10.py" "backlog/issues.yaml" "backlog/top10.yaml"
                eq_refl eq_refl)
      as (status & w' & Hs & Hne & Hf & Ho & He).
    exists status, w'. repeat (split; [assumption|]). exact He.
Defined.

(** ** The command line *)




(** * Further properties of the ranker *)

(** ** When the key of an entry is defined *)

Lemma is_Ok_false {A} (e : exn) : (∃ a : A, Raise e = Ok a) ↔ false = true.
Proof. split; [by intros [a [=]]|done]. Qed.

Lemma normalise_priority_defined d :
  (∃ p, _normalise_priority (YMap d) = Ok p) ↔
  field_is_str d "priority" || is_record (YMap d) = true.
Proof.
  unfold field_is_str. destruct (is_record (YMap d)) eqn:Hrec.
  - rewrite orb_true_r, (normalise_priority_record d Hrec).
    destruct (scan_labels_ok "priority:" (record_labels d) eq_refl) as [found ->].
    split; [done|]. intros _. destruct (dict_get d "priority") as [[]|]; by eexists.
  - rewrite orb_false_r. unfold _normalise_priority, is_record, scannable, labels_of in *.
    simpl in *.
    destruct (dict_get d "labels") as [[|[]|n|s|[]|[]]|]; simplify_eq/=;
      try (destruct (n =? 0); simplify_eq/=);
      try (destruct (String.eqb s ""); simplify_eq/=);
      destruct (dict_get d "priority") as [[]|]; simpl;
      try apply is_Ok_false; try (split; [done|by eexists]).
Qed.

Lemma normalise_impact_defined d :
  (∃ i, _normalise_impact (YMap d) = Ok i) ↔
  field_is_str d "impact" || is_record (YMap d) = true.
Proof.
  unfold field_is_str. destruct (is_record (YMap d)) eqn:Hrec.
  - rewrite orb_true_r, (normalise_impact_record d Hrec).
    destruct (scan_labels_ok "impact:" (record_labels d) eq_refl) as [found ->].
    split; [done|]. intros _. destruct (dict_get d "impact") as [[]|]; by eexists.
  - rewrite orb_false_r. unfold _normalise_impact, is_record, scannable, labels_of in *.
    simpl in *.
    destruct (dict_get d "labels") as [[|[]|n|s|[]|[]]|]; simplify_eq/=;
      try (destruct (n =? 0); simplify_eq/=);
      try (destruct (String.eqb s ""); simplify_eq/=);
      destruct (dict_get d "impact") as [[]|]; simpl;
      try apply is_Ok_false; try (split; [done|by eexists]).
Qed.

Lemma sort_key_sortable issue index :
  (∃ k, _sort_key issue index = Ok k) ↔ sortable issue = true.
Proof.
  destruct issue as [| | | | |d]; try (by split; [intros [k [=]]|]).
  pose proof (normalise_priority_defined d) as Hp.
  pose proof (normalise_impact_defined d) as Hi.
  assert (∀ p i, ∃ k,
            _normalise_estimate (YMap d)
            ≫= (λ estimate,
                  Ok (- order_score PRIORITY_ORDER p DEFAULT_PRIORITY,
                      - order_score IMPACT_ORDER i (Str.upper DEFAULT_IMPACT),
                      order_score ESTIMATE_ORDER estimate DEFAULT_ESTIMATE, index))
            = Ok k) as He.
  { intros p i. rewrite normalise_estimate_record.
    destruct (dict_get d "estimate") as [[]|]; by eexists. }
  unfold sortable, _sort_key.
  destruct (is_record (YMap d)); simpl in Hp, Hi |- *;
    rewrite ?orb_true_r, ?orb_false_r in Hp, Hi.
  - destruct (proj2 Hp eq_refl) as [p ->]. destruct (proj2 Hi eq_refl) as [i ->].
    split; [intros _; reflexivity|]. intros _. apply He.
  - destruct (_normalise_priority (YMap d)) as [p|],
      (_normalise_impact (YMap d)) as [i|].
    + rewrite (proj1 Hp), (proj1 Hi) by by eexists.
      split; [intros _; reflexivity|]. intros _. apply He.
    + split; [by intros [k [=]]|]. intros [_ Hs]%andb_prop.
      by destruct (proj2 Hi Hs) as [? [=]].
    + split; [by intros [k [=]]|]. intros [Hs _]%andb_prop.
      by destruct (proj2 Hp Hs) as [? [=]].
    + split; [by intros [k [=]]|]. intros [Hs _]%andb_prop.
      by destruct (proj2 Hp Hs) as [? [=]].
Qed.

Lemma sort_key_raises issue index :
  sortable issue = false →
  _sort_key issue index
  = Raise (match issue with YMap _ => TypeError | _ => AttributeError end).
Proof.
  intros Hs. destruct issue as [| | | | |d]; try done.
  assert (is_record (YMap d) = false) as Hrec.
  { unfold sortable in Hs. by apply orb_false_elim in Hs as [-> _]. }
  assert (∀ (f : list yaml → result string),
            labels_of (YMap d) ≫= (λ labels, py_iter labels ≫= f) = Raise TypeError)
    as Hlabels.
  { intros f. unfold is_record, scannable, labels_of in *. simpl in *.
    destruct (dict_get d "labels") as [[|[]|n|s|[]|[]]|]; simplify_eq/=; try done.
    - by destruct (n =? 0).
    - by rewrite orb_true_r in Hrec. }
  unfold sortable, field_is_str in Hs. rewrite Hrec in Hs. simpl in Hs.
  unfold _sort_key, _normalise_priority, _normalise_impact. simpl.
  destruct (dict_get d "priority") as [[]|]; simpl in *;
    try (by rewrite !Hlabels).
  destruct (dict_get d "impact") as [[]|]; simpl in *;
    try done; by rewrite !Hlabels.
Qed.

Lemma enumerate_from_app {A} (l k : list A) start :
  enumerate_from start (l ++ k)
  = enumerate_from start l ++ enumerate_from (start + length l) k.
Proof.
  revert start. induction l as [|x l IH]; intros start; simpl.
  - by rewrite Nat.add_0_r.
  - rewrite IH. by replace (S start + length l)%nat with (start + S (length l))%nat by lia.
Qed.

Section decorate.
Context {A : Type} (key : A → result sort_key).

Lemma decorate_defined (l : list A) :
  (∃ keyed, decorate key l = Ok keyed) ↔ Forall (λ a, ∃ k, key a = Ok k) l.
Proof.
  induction l as [|a l IH]; simpl.
  - split; [constructor|by eexists].
  - rewrite Forall_cons, <-IH. destruct (key a) as [k|e]; simpl.
    + destruct (decorate key l) as [rest|e]; simpl.
      * split; [eauto|by eexists].
      * split; [by intros [? [=]]|by intros [_ [? [=]]]].
    + split; [by intros [? [=]]|by intros [[? [=]] _]].
Qed.

Lemma decorate_raise (pre post : list A) a e :
  Forall (λ a, ∃ k, key a = Ok k) pre → key a = Raise e →
  decorate key (pre ++ a :: post) = Raise e.
Proof.
  intros Hpre Ha. induction Hpre as [|b pre [k Hb] _ IH]; simpl.
  - by rewrite Ha.
  - by rewrite Hb, IH.
Qed.
End decorate.

Lemma item_keys_defined issues start :
  Forall (λ item, ∃ k, item_key item = Ok k) (enumerate_from start issues) ↔
  Forall (λ v, sortable v = true) issues.
Proof.
  revert start. induction issues as [|x issues IH]; intros start; simpl.
  - split; constructor.
  - rewrite !Forall_cons, IH. unfold item_key at 1; simpl.
    by rewrite sort_key_sortable.
Qed.

(** ** The entries on which the selection is defined *)

(** X1: on a mapping whose ['issues'] is a list, the selection returns a
    document exactly when every entry of the list is a mapping whose
    [labels] can be scanned or whose [priority] and [impact] are both
    strings (so that [labels] is never read). *)
Theorem selection_defined_iff d issues limit :
  dict_get d "issues" = Some (YList issues) →
  (∃ doc, select_document (YMap d) limit = Ok doc) ↔
  Forall (λ v, sortable v = true) issues.
Proof.
  intros Hd. rewrite <-(item_keys_defined issues 0), <-decorate_defined.
  unfold select_document. rewrite Hd.
  unfold sorted_issues, sorted_enumerated, sorted, enumerate.
  destruct (decorate item_key (enumerate_from 0 issues)) as [keyed|e]; simpl.
  - split; by eexists.
  - split; by intros [? [=]].
Qed.

Lemma selection_defined_iff_witness :
  (∃ doc, select_document Example.backlog 2 = Ok doc) ↔
  Forall (λ v, sortable v = true) Example.issues.
Proof.
  apply (selection_defined_iff [(YStr "issues", YList Example.issues)]).
  reflexivity.
Defined.

(** X2: when the first entry that cannot be sorted is not a mapping the
    selection raises [AttributeError], and when it is a mapping (one whose
    [labels] cannot be iterated) it raises [TypeError]; in both cases
    [select_top_issues] leaves the world as it was and the script ends with
    status 1 without writing a file. *)
Theorem first_bad_entry_raises source target limit w d pre x post :
  file_at w source = Some (Document (YMap d)) →
  dict_get d "issues" = Some (YList (pre ++ x :: post)) →
  Forall (λ v, sortable v = true) pre →
  sortable x = false →
  let e := match x with YMap _ => TypeError | _ => AttributeError end in
  select_document (YMap d) limit = Raise e ∧
  select_top_issues source target limit w = (Raise e, w) ∧
  ∀ prog input_yaml output_yaml,
    Pathlib.Path input_yaml = source →
    Pathlib.Path output_yaml = target →
    ∃ w', script [prog; input_yaml; output_yaml] w = (1, w') ∧ files w' = files w.
Proof.
  intros Hsrc%file_at_load Hd Hpre Hx e.
  assert (∀ lim, select_document (YMap d) lim = Raise e) as Hdoc.
  { intros lim. unfold select_document. rewrite Hd.
    unfold sorted_issues, sorted_enumerated, sorted, enumerate.
    rewrite enumerate_from_app; simpl.
    rewrite (decorate_raise item_key _ _ _ e); [done| |].
    - by apply item_keys_defined.
    - by apply sort_key_raises. }
  split; [done|]. split; [by apply (select_top_issues_raise _ _ _ _ (YMap d))|].
  intros prog input_yaml output_yaml <- <-.
  destruct (script_select_raises prog input_yaml output_yaml w _ _ Hsrc (Hdoc _))
    as (w' & Hrun & Hfiles & _).
  by exists w'.
Qed.

Lemma first_bad_entry_raises_witness :
  let w := World [] {[ [] := Directory;
                       ["in.yaml"] :=
                         Regular (Document (YMap [(YStr "issues",
                           YList [Example.issue1; YStr "fix the build";
                                  Example.issue2])])) ]} [] [] in
  select_top_issues (Pathlib.Path "in.yaml") (Pathlib.Path "out.yaml") 10 w
  = (Raise AttributeError, w) ∧
  ∃ w', script ["select_top10.py"; "in.yaml"; "out.yaml"] w = (1, w') ∧
        files w' = files w.
Proof.
  intros w.
  destruct (first_bad_entry_raises (Pathlib.Path "in.yaml") (Pathlib.Path "out.yaml")
              10 w
              [(YStr "issues",
                YList [Example.issue1; YStr "fix the build"; Example.issue2])]
              [Example.issue1] (YStr "fix the build") [Example.issue2])
    as (_ & Hsel & Hrun).
  - reflexivity.
  - reflexivity.
  - repeat constructor.
  - reflexivity.
  - split; [exact Hsel|]. exact (Hrun _ _ _ eq_refl eq_refl).
Defined.

(** ** Limits at and beyond the ends *)

(** X3: a limit that is not smaller than the number of records keeps them
    all: the list written is the whole sorted list, a rearrangement of the
    input. *)
Theorem limit_beyond_length_keeps_all d issues limit :
  dict_get d "issues" = Some (YList issues) →
  Forall (λ v, is_record v = true) issues →
  Z.of_nat (length issues) ≤ limit →
  ∃ ranked,
    sorted_issues issues = Ok ranked ∧
    select_document (YMap d) limit = Ok (YMap [(YStr "issues", YList ranked)]) ∧
    ranked ≡ₚ issues.
Proof.
  intros Hd Hrec Hlimit.
  destruct (sorted_issues_spec issues Hrec)
    as (ranked & _ & Hs & _ & _ & Hperm & _).
  exists ranked.*2. repeat (split; [done|]). split; [|done].
  rewrite (select_document_issues d issues _ _ Hd Hs), slice_to_nonneg by lia.
  rewrite take_ge; [done|]. rewrite (Permutation_length Hperm). lia.
Qed.

Lemma limit_beyond_length_keeps_all_witness :
  ∃ ranked,
    sorted_issues Example.issues = Ok ranked ∧
    select_document Example.backlog 10 = Ok (YMap [(YStr "issues", YList ranked)]) ∧
    ranked ≡ₚ Example.issues.
Proof.
  apply (limit_beyond_length_keeps_all
           [(YStr "issues", YList Example.issues)] Example.issues 10).
  - reflexivity.
  - repeat constructor.
  - simpl. lia.
Defined.

(** X4: a negative limit [-k] with [k] at least the number of records is
    not refused either: the list written is empty. *)
Theorem limit_below_minus_length_keeps_none d issues limit :
  dict_get d "issues" = Some (YList issues) →
  Forall (λ v, is_record v = true) issues →
  limit ≤ - Z.of_nat (length issues) →
  select_document (YMap d) limit = Ok (YMap [(YStr "issues", YList [])]).
Proof.
  intros Hd Hrec Hlimit.
  destruct (sorted_issues_spec issues Hrec)
    as (ranked & _ & Hs & _ & _ & Hperm & _).
  rewrite (select_document_issues d issues _ _ Hd Hs). unfold slice_to.
  pose proof (Permutation_length Hperm) as Hlen.
  destruct (Z.ltb_spec limit 0) as [Hneg|Hpos].
  - by replace (Z.to_nat (Z.max 0 (Z.of_nat (length ranked.*2) + limit)))
      with 0%nat by lia.
  - assert (length ranked.*2 = 0%nat) as Hnil by lia.
    apply nil_length_inv in Hnil. by rewrite Hnil, take_nil.
Qed.

Lemma limit_below_minus_length_keeps_none_witness :
  select_document Example.backlog (- 3) = Ok (YMap [(YStr "issues", YList [])]).
Proof.
  apply (limit_below_minus_length_keeps_none
           [(YStr "issues", YList Example.issues)] Example.issues (- 3)).
  - reflexivity.
  - repeat constructor.
  - simpl. lia.
Defined.

(** ** The records that are cut off *)



(** ** Input order *)

(** X6: when no two records of the input have the same three scores, the
    sorted list does not depend on the order of the input: every
    rearrangement of the input is sorted into the same list. *)
Theorem ranking_ignores_input_order issues issues' :
  Forall (λ v, is_record v = true) issues →
  issues' ≡ₚ issues →
  (∀ i j x y,
     issues !! i = Some x → issues !! j = Some y →
     _sort_key x 0 = _sort_key y 0 → i = j) →
  ∃ ranked,
    sorted_issues issues = Ok ranked ∧ sorted_issues issues' = Ok ranked.
Proof.
  intros Hrec Hperm Hties.
  assert (Forall (λ v, is_record v = true) issues') as Hrec' by by rewrite Hperm.
  destruct (sorted_issues_spec issues Hrec)
    as (ranked & _ & Hs & _ & _ & Hp & Hsorted).
  destruct (sorted_issues_spec issues' Hrec')
    as (ranked' & _ & Hs' & _ & _ & Hp' & Hsorted').
  exists ranked.*2. split; [done|]. rewrite Hs'. f_equal.
  apply (StronglySorted_unique_strong rank_le); try done.
  - intros x y Hx Hy Hxy Hyx.
    rewrite Hp' in Hx. rewrite Hp in Hy. rewrite Hperm in Hx.
    apply list_elem_of_lookup in Hx as [i Hi], Hy as [j Hj].
    assert (i = j) as ->; [|by simplify_eq].
    apply (Hties i j x y Hi Hj).
    rewrite Forall_forall in Hrec.
    rewrite !rank_of_record by by eapply Hrec, list_elem_of_lookup_2.
    f_equal. f_equal.
    specialize (Hxy 0 1 ltac:(lia)). specialize (Hyx 0 1 ltac:(lia)).
    destruct (rank_of x) as [[a b] c], (rank_of y) as [[a' b'] c'].
    apply key_ltb_lex in Hxy, Hyx. repeat f_equal; lia.
  - by rewrite Hp', Hp.
Qed.

Lemma ranking_ignores_input_order_witness :
  ∃ ranked,
    sorted_issues Example.issues = Ok ranked ∧
    sorted_issues [Example.issue3; Example.issue1; Example.issue2] = Ok ranked.
Proof.
  apply (ranking_ignores_input_order
           Example.issues [Example.issue3; Example.issue1; Example.issue2]).
  - repeat constructor.
  - unfold Example.issues. symmetry.
    eapply perm_trans; [apply perm_skip, perm_swap|apply perm_swap].
  - intros [|[|[|i]]] [|[|[|j]]] x y Hx Hy Hk; simplify_eq/=; try reflexivity;
      discriminate Hk.
Defined.

(** ** Letter case *)

Lemma upper_lower_char c : Str.upper_char (Str.lower_char c) = Str.upper_char c.
Proof. by destruct c as [[] [] [] [] [] [] [] []]. Qed.

Lemma upper_lower s : Str.upper (Str.lower s) = Str.upper s.
Proof.
  induction s as [|c s IH]; simpl; [done|].
  unfold Str.upper, Str.lower in *. simpl. by rewrite upper_lower_char, IH.
Qed.

Lemma lower_upper_eq s s' : Str.lower s = Str.lower s' → Str.upper s = Str.upper s'.
Proof. intros Hs. by rewrite <-(upper_lower s), <-(upper_lower s'), Hs. Qed.

Lemma lower_char_is_colon c :
  Ascii.eqb (Str.lower_char c) ":" = Ascii.eqb c ":".
Proof. by destruct c as [[] [] [] [] [] [] [] []]. Qed.

Lemma split1_lower s :
  Str.split1 ":" (Str.lower s) = Str.lower <$> Str.split1 ":" s.
Proof.
  induction s as [|c s IH]; simpl; [done|].
  unfold Str.lower in *; simpl. rewrite lower_char_is_colon.
  destruct (Ascii.eqb c ":"); [done|]. rewrite IH.
  by destruct (Str.split1 ":" s).
Qed.

Lemma scan_labels_case prefix labels labels' :
  Forall2 (λ a b, same_ignoring_case (Some a) (Some b)) labels labels' →
  scan_labels prefix labels = scan_labels prefix labels'.
Proof.
  induction 1 as [|a b labels labels' [[= <-]|(s & s' & [= ->] & [= ->] & Hs)] _ IH];
    simpl; [done| |].
  - destruct a; try done. by rewrite IH.
  - rewrite <-Hs, IH. destruct (Str.startswith _ _); [|done].
    assert (Str.lower <$> Str.split1 ":" s = Str.lower <$> Str.split1 ":" s') as Hsplit
      by by rewrite <-!split1_lower, Hs.
    unfold index.
    assert (Str.lower <$> Str.split1 ":" s !! 1%nat
            = Str.lower <$> Str.split1 ":" s' !! 1%nat) as Htail
      by by rewrite <-!list_lookup_fmap, Hsplit.
    destruct (Str.split1 ":" s !! 1%nat) as [t|], (Str.split1 ":" s' !! 1%nat) as [t'|];
      simplify_eq/=; try done.
    by rewrite (lower_upper_eq t t').
Qed.

Lemma labels_items_case d d' :
  (dict_get d "labels" = dict_get d' "labels" ∨
   ∃ labels labels',
     dict_get d "labels" = Some (YList labels) ∧
     dict_get d' "labels" = Some (YList labels') ∧
     Forall2 (λ a b, same_ignoring_case (Some a) (Some b)) labels labels') →
  ∀ prefix (f : option string → result string),
    labels_of (YMap d) ≫= (λ labels, py_iter labels ≫= λ items,
                             scan_labels prefix items ≫= f)
    = labels_of (YMap d') ≫= (λ labels, py_iter labels ≫= λ items,
                                scan_labels prefix items ≫= f).
Proof.
  intros [Heq|(labels & labels' & Hl & Hl' & Hsame)] prefix f;
    unfold labels_of, get; cbn [mbind result_bind].
  - by rewrite Heq.
  - rewrite Hl, Hl'. pose proof (scan_labels_case prefix _ _ Hsame) as Hscan.
    destruct Hsame; cbn [truthy py_iter mbind result_bind]; [done|by rewrite Hscan].
Qed.

(** X7: the case of letters does not matter.  Two mappings whose
    [priority], [impact] and [estimate] are the same or are strings that
    differ in letter case only, and whose [labels] are the same or are lists
    whose entries pair up in that way, have the same sort key (or raise the
    same exception). *)
Theorem letter_case_is_ignored d d' index :
  same_ignoring_case (dict_get d "priority") (dict_get d' "priority") →
  same_ignoring_case (dict_get d "impact") (dict_get d' "impact") →
  same_ignoring_case (dict_get d "estimate") (dict_get d' "estimate") →
  (dict_get d "labels" = dict_get d' "labels" ∨
   ∃ labels labels',
     dict_get d "labels" = Some (YList labels) ∧
     dict_get d' "labels" = Some (YList labels') ∧
     Forall2 (λ a b, same_ignoring_case (Some a) (Some b)) labels labels') →
  _sort_key (YMap d) index = _sort_key (YMap d') index.
Proof.
  intros Hp Hi He Hl. pose proof (labels_items_case d d' Hl) as Hscan.
  unfold _sort_key.
  assert (_normalise_priority (YMap d) = _normalise_priority (YMap d')) as ->.
  { unfold _normalise_priority; simpl.
    destruct Hp as [<-|(s & s' & -> & -> & Hs)]; [|by rewrite (lower_upper_eq s s')].
    destruct (dict_get d "priority") as [[]|]; try done; apply Hscan. }
  assert (_normalise_impact (YMap d) = _normalise_impact (YMap d')) as ->.
  { unfold _normalise_impact; simpl.
    destruct Hi as [<-|(s & s' & -> & -> & Hs)]; [|by rewrite (lower_upper_eq s s')].
    destruct (dict_get d "impact") as [[]|]; try done; apply Hscan. }
  assert (_normalise_estimate (YMap d) = _normalise_estimate (YMap d')) as ->.
  { unfold _normalise_estimate; simpl.
    destruct He as [<-|(s & s' & -> & -> & Hs)]; [done|].
    by rewrite (lower_upper_eq s s'). }
  done.
Qed.

Lemma letter_case_is_ignored_witness :
  _sort_key (YMap [(YStr "priority", YStr "p1"); (YStr "estimate", YStr "xl");
                   (YStr "labels", YList [YStr "IMPACT:high"])]) 4
  = _sort_key (YMap [(YStr "estimate", YStr "Xl"); (YStr "priority", YStr "P1");
                     (YStr "labels", YList [YStr "Impact:High"])]) 4.
Proof.
  apply letter_case_is_ignored.
  - right. by exists "p1", "P1".
  - by left.
  - right. by exists "xl", "Xl".
  - right. exists [YStr "IMPACT:high"], [YStr "Impact:High"].
    repeat split. constructor; [|constructor].
    right. by exists "IMPACT:high", "Impact:High".
Defined.

(** ** The range of the scores *)

(** X8: whenever a key is computed, its priority and impact components lie
    between -3 and -1, its estimate component between 1 and 5, and its last
    component is the index it was given. *)
Theorem sort_key_bounds issue index a b c i :
  _sort_key issue index = Ok (a, b, c, i) →
  -3 ≤ a ≤ -1 ∧ -3 ≤ b ≤ -1 ∧ 1 ≤ c ≤ 5 ∧ i = index.
Proof.
  unfold _sort_key.
  destruct (_normalise_priority issue) as [p|]; simpl; [|done].
  destruct (_normalise_impact issue) as [im|]; simpl; [|done].
  destruct (_normalise_estimate issue) as [e|]; simpl; [|done].
  destruct (order_scores p im e) as (-> & -> & ->). intros [= <- <- <- <-].
  unfold Spec.priority_score, Spec.impact_score, Spec.estimate_score.
  repeat split; repeat (destruct (String.eqb _ _)); lia.
Qed.

Lemma sort_key_bounds_witness :
  _sort_key Example.issue4 3 = Ok (-2, -2, 1, 3) ∧
  (-3 ≤ -2 ≤ -1 ∧ -3 ≤ -2 ≤ -1 ∧ 1 ≤ 1 ≤ 5 ∧ (3 : Z) = 3).
Proof.
  split; [reflexivity|]. apply (sort_key_bounds Example.issue4 3). reflexivity.
Defined.

(** ** Labels given as one string *)

Lemma one_char_no_match (a b : ascii) (prefix : string) (s : string) :
  Forall (λ v, label_matches (String a (String b prefix)) v = false)
    (YStr <$> Str.chars s).
Proof.
  induction s as [|c s IH]; csimpl; constructor; [|done].
  unfold Str.lower; simpl. by destruct (Ascii.eqb a (Str.lower_char c)).
Qed.

(** X9: a [labels] field that is one string, not a list of strings, is gone
    through character by character, and no character is a label: priority
    and impact fall back to their defaults even when the string spells a
    label. *)
Theorem labels_plain_string_is_ignored d s :
  dict_get d "labels" = Some (YStr s) →
  ((∀ p, dict_get d "priority" ≠ Some (YStr p)) →
   _normalise_priority (YMap d) = Ok "P3") ∧
  ((∀ i, dict_get d "impact" ≠ Some (YStr i)) →
   _normalise_impact (YMap d) = Ok "LOW").
Proof.
  intros Hl.
  assert (is_record (YMap d) = true) as Hrec.
  { unfold is_record, scannable. rewrite Hl. apply orb_true_r. }
  assert (record_labels d = YStr <$> Str.chars s) as Hlabels.
  { unfold record_labels, labels_of; simpl. rewrite Hl; simpl.
    by destruct s. }
  split; intros Hp.
  - rewrite (normalise_priority_labels d Hrec Hp), Hlabels.
    by rewrite (scan_labels_miss _ _ (one_char_no_match _ _ _ s)).
  - rewrite (normalise_impact_labels d Hrec Hp), Hlabels.
    by rewrite (scan_labels_miss _ _ (one_char_no_match _ _ _ s)).
Qed.

Lemma labels_plain_string_is_ignored_witness :
  _normalise_priority (YMap [(YStr "id", YInt 9); (YStr "labels", YStr "priority:P1")])
  = Ok "P3".
Proof.
  destruct (labels_plain_string_is_ignored
              [(YStr "id", YInt 9); (YStr "labels", YStr "priority:P1")] "priority:P1"
              eq_refl) as [Hp _].
  apply Hp. intros p. discriminate.
Defined.

(** ** What a run of the command leaves behind *)

(** X10: every run of the script ends with status 0 or 1.  With status 1
    the regular files and standard output are as before the run.  Status 0
    is reached only with two arguments, an input path that leads to a
    document and a selection with limit 10 that succeeds; then the selected
    document is where the output path leads, every other location holds the
    file it held, and nothing was printed on standard error.  In every run a
    location that the output path of the command line does not lead to
    keeps its file. *)
Theorem script_status_and_files argv w :
  ∃ status w',
    script argv w = (status, w') ∧
    (status = 0 ∨ status = 1) ∧
    (status = 1 → files w' = files w ∧ stdout w' = stdout w) ∧
    (status = 0 →
     ∃ prog input_yaml output_yaml data doc loc,
       argv = [prog; input_yaml; output_yaml] ∧
       file_at w (Pathlib.Path input_yaml) = Some (Document data) ∧
       select_document data 10 = Ok doc ∧
       resolve w' (Pathlib.Path output_yaml) = Ok loc ∧
       files w' = <[loc := Document doc]> (files w) ∧
       stderr w' = stderr w) ∧
    (∀ loc,
       (∀ prog input_yaml output_yaml,
          argv = [prog; input_yaml; output_yaml] →
          resolve w' (Pathlib.Path output_yaml) ≠ Ok loc) →
       files w' !! loc = files w !! loc).
Proof.
  destruct (script_cases argv w) as (status & w' & Hrun & Hcases).
  exists status, w'. split; [done|].
  destruct Hcases as [(-> & Hfiles & Hout)|(-> & Hok)].
  - repeat split; [by right|done..| |]; [done|]. intros loc _. by rewrite Hfiles.
  - destruct Hok as (prog & input_yaml & output_yaml & data & doc & loc &
                     -> & Hload%file_at_load & Hdoc & Hloc & _ & Hfiles & _ & Herr).
    repeat split; [by left|done..| |].
    + intros _. by exists prog, input_yaml, output_yaml, data, doc, loc.
    + intros loc' Hother. rewrite Hfiles, lookup_insert_ne; [done|].
      intros ->. by apply (Hother prog input_yaml output_yaml).
Qed.

Lemma script_status_and_files_witness :
  ∃ status w',
    script ["tools/select_top10.py"; "backlog/issues.yaml"; "backlog/top10.yaml"]
      Example.world0 = (status, w') ∧
    (status = 0 ∨ status = 1) ∧
    (∀ loc,
       resolve w' (Pathlib.Path "backlog/top10.yaml") ≠ Ok loc →
       files w' !! loc = files Example.world0 !! loc).
Proof.
  destruct (script_status_and_files
              ["tools/select_top10.py"; "backlog/issues.yaml"; "backlog/top10.yaml"]
              Example.world0) as (status & w' & Hrun & Hstatus & _ & _ & Hframe).
  exists status, w'. repeat (split; [assumption|]).
  intros loc Hloc. apply Hframe. by intros ? ? ? [= <- <- <-].
Defined.

(** X11: from the command line the limit is [default_limit] always: on an
    input of [n] records, whenever the script ends with status 0 the document
    to which the output path leads lists [min 10 n] of them.  It ends with
    status 0 when the way to the output is clear, [main] making the
    directories that are missing; otherwise it may end with status 1, and
    then the regular files are as they were. *)
Theorem command_writes_at_most_ten prog input_yaml output_yaml w d issues :
  file_at w (Pathlib.Path input_yaml) = Some (Document (YMap d)) →
  dict_get d "issues" = Some (YList issues) →
  Forall (λ v, is_record v = true) issues →
  ∃ out status w',
    script [prog; input_yaml; output_yaml] w = (status, w') ∧
    length out = (10 `min` length issues)%nat ∧
    (status = 0 →
     file_at w' (Pathlib.Path output_yaml)
     = Some (Document (YMap [(YStr "issues", YList out)]))) ∧
    (clear_way w (Pathlib.Path output_yaml) = true → status = 0) ∧
    (status ≠ 0 → status = 1 ∧ files w' = files w).
Proof.
  intros Hsrc%file_at_load Hd Hrec.
  destruct (sorted_issues_spec issues Hrec)
    as (ranked & _ & Hs & _ & _ & Hperm & _).
  pose proof (select_document_issues d issues _ 10 Hd Hs) as Hdoc.
  exists (slice_to ranked.*2 10).
  destruct (script_cases [prog; input_yaml; output_yaml] w)
    as (status & w' & Hrun & Hcases).
  exists status, w'. split; [done|]. split; [|split; [|split]].
  4: { intros Hstatus. by destruct Hcases as [(-> & ? & _)|(-> & _)]. }
  - rewrite slice_to_nonneg, length_take, (Permutation_length Hperm) by done.
    done.
  - intros ->. destruct Hcases as [(? & _)|(_ & Hok)]; [done|].
    destruct Hok as (? & ? & ? & data & doc & loc & [= <- <- <-] & Hload & Hdoc' &
                     _ & Hat & _).
    rewrite Hsrc in Hload. injection Hload as <-.
    change default_limit with 10 in Hdoc'. rewrite Hdoc in Hdoc'.
    by injection Hdoc' as <-.
  - intros Hclear.
    destruct (script_clear_way prog input_yaml output_yaml w _ _ Hsrc Hdoc Hclear)
      as (w'' & Hrun' & _).
    rewrite Hrun in Hrun'. by injection Hrun'.
Qed.

Lemma command_writes_at_most_ten_witness :
  ∃ out w',
    script ["tools/select_top10.py"; "backlog/issues.yaml"; "out/top10.yaml"]
      Example.world0 = (0, w') ∧
    length out = (10 `min` length Example.issues)%nat ∧
    file_at w' (Pathlib.Path "out/top10.yaml")
    = Some (Document (YMap [(YStr "issues", YList out)])).
Proof.
  destruct (command_writes_at_most_ten "tools/select_top10.py" "backlog/issues.yaml"
              "out/top10.yaml" Example.world0
              [(YStr "issues", YList Example.issues)] Example.issues)
    as (out & status & w' & Hrun & Hlen & Hat & Hclear & _).
  - reflexivity.
  - reflexivity.
  - repeat constructor.
  - assert (status = 0) as Hstatus by (apply Hclear; reflexivity).
    exists out, w'. rewrite <-Hstatus at 1. auto.
Defined.

(** ** The fields that the ranking reads *)

Lemma sort_keys_Forall2 {A} (P : A → A → Prop) (l l' : list (sort_key * A)) :
  Forall2 (λ a b, a.1 = b.1 ∧ P a.2 b.2) l l' →
  Forall2 (λ a b, a.1 = b.1 ∧ P a.2 b.2) (sort_keys l) (sort_keys l').
Proof.
  induction 1 as [|x x' l l' [Hk Hx] _ IH]; simpl; [constructor|].
  induction IH as [|y y' m m' [Hy Hyy] Hm IHm]; simpl.
  - by repeat constructor.
  - rewrite Hk, Hy. destruct (key_ltb y'.1 x'.1); by repeat constructor.
Qed.

Lemma sorted_enumerated_eq issues :
  Forall (λ v, is_record v = true) issues →
  sorted_enumerated issues
  = Ok (sort_keys ((λ a : nat * yaml, ((rank_of a.2, Z.of_nat a.1), a))
                   <$> enumerate issues)).*2.
Proof.
  intros Hrec. unfold sorted_enumerated, sorted.
  rewrite (decorate_total _ (λ a, (rank_of a.2, Z.of_nat a.1))); [done|].
  apply Forall_forall. intros [i x] Hx%elem_of_enumerate; simpl.
  apply rank_of_record. rewrite Forall_forall in Hrec.
  eapply Hrec, list_elem_of_lookup_2, Hx.
Qed.

(** X12: the ranking reads [priority], [impact], [estimate] and [labels]
    and nothing else.  Two lists of records that agree, entry by entry, on
    these four fields are sorted by the same rearrangement: the original
    indices come out in the same order, whatever the other fields hold. *)
Theorem ranking_reads_four_fields issues issues' :
  Forall (λ v, is_record v = true) issues →
  Forall2 (λ x y, ∃ d d',
             x = YMap d ∧ y = YMap d' ∧
             dict_get d "priority" = dict_get d' "priority" ∧
             dict_get d "impact" = dict_get d' "impact" ∧
             dict_get d "estimate" = dict_get d' "estimate" ∧
             dict_get d "labels" = dict_get d' "labels") issues issues' →
  ∃ ranked ranked',
    sorted_enumerated issues = Ok ranked ∧
    sorted_enumerated issues' = Ok ranked' ∧
    ranked.*1 = ranked'.*1.
Proof.
  intros Hrec Hagree.
  assert (Forall2 (λ x y, is_record y = true ∧ rank_of x = rank_of y) issues issues')
    as Hsame.
  { revert Hrec.
    induction Hagree as [|x y l l' (d & d' & -> & -> & Hp & Hi & He & Hl) _ IH];
      intros Hrec; [constructor|].
    apply Forall_cons in Hrec as [Hx Hrec]. constructor; [|by apply IH]. split.
    - unfold is_record in *. by rewrite <-Hl.
    - unfold rank_of, _sort_key, _normalise_priority, _normalise_impact,
        _normalise_estimate, labels_of; simpl. by rewrite Hp, Hi, He, Hl. }
  assert (Forall (λ v, is_record v = true) issues') as Hrec'.
  { clear Hagree Hrec. induction Hsame as [|???? []]; by constructor. }
  rewrite (sorted_enumerated_eq issues Hrec), (sorted_enumerated_eq issues' Hrec').
  eexists _, _. repeat (split; [done|]).
  set (dec := λ a : nat * yaml, ((rank_of a.2, Z.of_nat a.1), a)).
  assert (Forall2 (λ a b, a.1 = b.1 ∧ a.2.1 = b.2.1)
            (dec <$> enumerate issues) (dec <$> enumerate issues')) as Hkeyed.
  { unfold enumerate. generalize 0%nat. clear Hagree Hrec Hrec'.
    induction Hsame as [|x y l l' [_ Hxy] _ IH]; intros start; csimpl;
      constructor; [|by apply IH].
    split; [|done]. unfold dec; simpl. by rewrite Hxy. }
  apply (sort_keys_Forall2 (λ a b, a.1 = b.1)) in Hkeyed.
  induction Hkeyed as [|a b m m' [_ Hab] _ IH]; csimpl; [done|].
  by rewrite Hab, IH.
Qed.

Lemma ranking_reads_four_fields_witness :
  ∃ ranked ranked',
    sorted_enumerated Example.issues = Ok ranked ∧
    sorted_enumerated
      [YMap [(YStr "priority", YStr "P3"); (YStr "id", YInt 41)];
       YMap [(YStr "owner", YStr "ada"); (YStr "priority", YStr "P1")];
       YMap [(YStr "impact", YStr "HIGH"); (YStr "priority", YStr "P1")]]
    = Ok ranked' ∧
    ranked.*1 = ranked'.*1.
Proof.
  apply ranking_reads_four_fields.
  - repeat constructor.
  - unfold Example.issues. repeat constructor; eexists _, _; by repeat split.
Defined.

(** * Properties of the pull-request script *)

Section gh_run.
Context `{Gh.Platform}.
Implicit Types (st : Gh.state) (environ : gmap string string).

(** ** Rules for [wp] *)

Lemma wp_eq {A} (m : Gh.M A) st o st' :
  Gh.wp m (λ o1 st1, o1 = o ∧ st1 = st') st ↔ m st = (o, st').
Proof.
  unfold Gh.wp. destruct (m st) as [o1 st1]; simpl.
  split; [by intros [-> ->]|by intros [= -> ->]].
Qed.

Lemma wp_bind {A B} (m : Gh.M A) (f : A → Gh.M B) Q st :
  Gh.wp m (λ o st1, match o with
                    | Gh.Return a => Gh.wp (f a) Q st1
                    | Gh.Raised r => Q (Gh.Raised r) st1
                    end) st →
  Gh.wp (m ≫= f) Q st.
Proof.
  unfold Gh.wp, mbind, Gh.M_bind. by destruct (m st) as [[a|r] st1].
Qed.

Lemma wp_ret {A} (a : A) (Q : Gh.outcome A → Gh.state → Prop) st :
  Q (Gh.Return a) st → Gh.wp (mret a) Q st.
Proof. done. Qed.

Lemma wp_raise {A} r (Q : Gh.outcome A → Gh.state → Prop) st :
  Q (Gh.Raised r) st → Gh.wp (Gh.raise r) Q st.
Proof. done. Qed.

Lemma wp_sys_exit {A} status (Q : Gh.outcome A → Gh.state → Prop) st :
  Q (Gh.Raised (Gh.SysExit status)) st → Gh.wp (Gh.sys_exit status) Q st.
Proof. done. Qed.

Lemma wp_print_err args (Q : Gh.outcome () → Gh.state → Prop) st :
  Q (Gh.Return ())
    (Gh.State (Gh.texts st) (Gh.github st) (Gh.sent st) (Gh.out st)
       (Gh.err st ++ [Gh.print_line args])) →
  Gh.wp (Gh.print_err args) Q st.
Proof. done. Qed.

Lemma wp_loads body (Q : Gh.outcome yaml → Gh.state → Prop) st :
  (∀ v, Gh.json_loads body = Some v → Q (Gh.Return v) st) →
  (Gh.json_loads body = None → Q (Gh.Raised Gh.JSONDecodeError) st) →
  Gh.wp (Gh.loads body) Q st.
Proof.
  intros Hv Hnone. unfold Gh.wp, Gh.loads.
  destruct (Gh.json_loads body); [by apply Hv|by apply Hnone].
Qed.

Lemma wp_subscript v key (Q : Gh.outcome yaml → Gh.state → Prop) st :
  (∀ d x, v = YMap d → dict_get d key = Some x → Q (Gh.Return x) st) →
  (∀ r, r = Gh.KeyError ∨ r = Gh.Exn TypeError → Q (Gh.Raised r) st) →
  Gh.wp (Gh.subscript v key) Q st.
Proof.
  intros Hx Hr. unfold Gh.wp, Gh.subscript.
  destruct v as [| | | | |d]; try (apply Hr; by right).
  destruct (dict_get d key) eqn:Hd; [by eapply Hx|apply Hr; by left].
Qed.

Lemma wp_loads_ok body v (Q : Gh.outcome yaml → Gh.state → Prop) st :
  Gh.json_loads body = Some v → Q (Gh.Return v) st → Gh.wp (Gh.loads body) Q st.
Proof. intros Hv HQ. unfold Gh.wp, Gh.loads. by rewrite Hv. Qed.

Lemma wp_subscript_ok d key x (Q : Gh.outcome yaml → Gh.state → Prop) st :
  dict_get d key = Some x → Q (Gh.Return x) st →
  Gh.wp (Gh.subscript (YMap d) key) Q st.
Proof. intros Hx HQ. unfold Gh.wp, Gh.subscript. by rewrite Hx. Qed.

Lemma wp_not_in_int x n (Q : Gh.outcome bool → Gh.state → Prop) st :
  Q (Gh.Raised (Gh.Exn TypeError)) st → Gh.wp (Gh.not_in_int x n) Q st.
Proof. done. Qed.

Lemma wp_collect_tree_items (Q : Gh.outcome (list yaml) → Gh.state → Prop) st :
  Q (Gh.Return (Gh.tree_items Gh.FILES (Gh.texts st))) st →
  Gh.wp Gh.collect_tree_items Q st.
Proof. done. Qed.

Lemma wp_gh environ path method body accept
    (Q : Gh.outcome (Z * string) → Gh.state → Prop) st :
  ((Gh.TOKEN environ = None ∨ Gh.TOKEN environ = Some "") →
   Q (Gh.Raised (Gh.Exn (SystemExit "GH_TOKEN is required"))) st) →
  (∀ token rep srv,
     Gh.TOKEN environ = Some token → token ≠ "" →
     Gh.urlopen (Gh.build_request token path method body accept) (Gh.github st)
     = (rep, srv) →
     Q match rep with
       | Gh.Reply code answer => Gh.Return (code, answer)
       | Gh.NoReply => Gh.Raised Gh.URLError
       end
       (Gh.State (Gh.texts st) srv
          (Gh.sent st ++ [Gh.build_request token path method body accept])
          (Gh.out st) (Gh.err st))) →
  Gh.wp (Gh.gh environ path method body accept) Q st.
Proof.
  intros Hbad Hgood. unfold Gh.wp, Gh.gh.
  destruct (Gh.TOKEN environ) as [token|]; [|apply Hbad; by left].
  destruct (String.eqb_spec token "") as [->|Hne]; [apply Hbad; by right|].
  specialize (Hgood token _ _ eq_refl Hne (surjective_pairing _)).
  by destruct (Gh.urlopen _ _) as [[code answer|] srv].
Qed.

(** ** The files that are committed *)

Lemma elem_of_tree_items files (texts : gmap string string) item :
  item ∈ Gh.tree_items files texts ↔
  ∃ rel content,
    item = Gh.tree_item rel content ∧ rel ∈ files ∧ texts !! rel = Some content.
Proof.
  induction files as [|rel files IH]; simpl.
  - split; [by intros ?%elem_of_nil|]. by intros (? & ? & _ & ?%elem_of_nil & _).
  - destruct (texts !! rel) as [content|] eqn:Hrel.
    + rewrite elem_of_cons, IH. split.
      * intros [->|(rel' & content' & -> & Hin & Hc)].
        -- exists rel, content. split_and!; [done|by left|done].
        -- exists rel', content'. split_and!; [done|by right|done].
      * intros (rel' & content' & -> & [->|Hin]%elem_of_cons & Hc).
        -- left. by simplify_eq.
        -- right. by exists rel', content'.
    + rewrite IH. split.
      * intros (rel' & content' & -> & Hin & Hc).
        exists rel', content'. split_and!; [done|by right|done].
      * intros (rel' & content' & -> & [->|Hin]%elem_of_cons & Hc); [by simplify_eq|].
        by exists rel', content'.
Qed.

(** ** Every run of [main] *)

#[local] Opaque Gh.tree_items.

Local Ltac wp_step :=
  cbn [Gh.texts Gh.github Gh.sent Gh.out Gh.err] in *;
  lazymatch goal with
  | |- Gh.wp (mbind _ _) _ _ => apply wp_bind
  | |- Gh.wp (mret _) _ _ => apply wp_ret
  | |- Gh.wp (Gh.sys_exit _) _ _ => apply wp_sys_exit
  | |- Gh.wp (Gh.print_err _) _ _ => apply wp_print_err
  | |- Gh.wp (Gh.loads _) _ _ => apply wp_loads; [intros ? ?|intros ?]
  | |- Gh.wp (Gh.subscript _ _) _ _ =>
      apply wp_subscript; [intros ? ? -> ?|intros ? [->| ->]]
  | |- Gh.wp (Gh.not_in_int _ _) _ _ => apply wp_not_in_int
  | |- Gh.wp Gh.collect_tree_items _ _ => apply wp_collect_tree_items
  | |- Gh.wp (Gh.gh _ _ _ _ _) _ _ =>
      apply wp_gh;
      [intros ?
      |let Htok := fresh "Htok" in
       intros ? [?code ?body|] ? Htok ? ?;
       repeat match goal with
              | Htok' : Gh.TOKEN _ = Some _ |- _ =>
                  lazymatch Htok' with
                  | Htok => fail
                  | _ => rewrite Htok' in Htok; injection Htok as <-
                  end
              end]
  | |- Gh.wp (if ?c then _ else _) _ _ => destruct c eqn:?
  end.

(** A run that is stopped with the requests sent so far. *)
Local Ltac stopped_here :=
  unfold Gh.stopped; eexists _, _;
  cbn [Gh.texts Gh.out Gh.sent];
  refine (conj eq_refl (conj eq_refl (conj eq_refl (conj _ _))));
  [once first [symmetry; apply app_nil_r
              |rewrite <-?(assoc_L (++)); reflexivity]|];
  cbn [app length take Gh.plan];
  refine (conj _ (conj _ (conj _ _)));
  [repeat (apply List.Forall2_cons;
           [eexists; refine (conj _ (conj _ eq_refl)); eassumption|]);
   apply List.Forall2_nil
  |let Hlen := fresh in
   intros Hlen; first [discriminate Hlen|left; reflexivity|right; reflexivity]
  |let Hr := fresh in
   intros ? Hr; first [discriminate Hr|injection Hr as <-; reflexivity]
  |let Hreq := fresh in
   intros ? Hreq; cbn [lookup list_lookup] in Hreq;
   first [discriminate Hreq|injection Hreq as <-; eexists; reflexivity]].

Lemma main_run environ rest st :
  Gh.wp (Gh.main environ rest) (Gh.stopped environ st) st.
Proof.
  unfold Gh.main.
  repeat lazymatch goal with
         | |- Gh.wp _ _ _ => wp_step
         end.
  all: cbn [Gh.texts Gh.github Gh.sent Gh.out Gh.err] in *.
  all: stopped_here.
Qed.

Lemma main_stopped environ rest st :
  ∃ r st' reqs,
    Gh.main environ rest st = (Gh.Raised r, st') ∧
    Gh.texts st' = Gh.texts st ∧ Gh.out st' = Gh.out st ∧
    Gh.sent st' = Gh.sent st ++ reqs ∧
    Forall2 (λ req step,
               ∃ token, Gh.TOKEN environ = Some token ∧ token ≠ "" ∧
                 req = Gh.build_request token step.1 step.2 (Gh.data req)
                         Gh.default_accept)
      reqs (take (length reqs) (Gh.plan environ)) ∧
    (length reqs = 5%nat → r = Gh.Exn TypeError ∨ r = Gh.URLError) ∧
    (∀ status, r = Gh.SysExit status → status = 1) ∧
    (∀ req, reqs !! 2%nat = Some req →
       ∃ base_sha,
         Gh.data req
         = Some (YMap [(YStr "base_tree", base_sha);
                       (YStr "tree",
                        YList (Gh.tree_items Gh.FILES (Gh.texts st)))])).
Proof.
  pose proof (main_run environ rest st) as Hrun. unfold Gh.wp, Gh.stopped in Hrun.
  destruct (Gh.main environ rest st) as [o st']; simpl in Hrun.
  destruct Hrun as (r & reqs & -> & Hrest). by exists r, st', reqs.
Qed.

Lemma requests_follow_steps environ reqs (steps : list (string * string)) :
  Forall2 (λ req step,
             ∃ token, Gh.TOKEN environ = Some token ∧ token ≠ "" ∧
               req = Gh.build_request token step.1 step.2 (Gh.data req)
                       Gh.default_accept) reqs steps →
  (λ req, (Gh.url req, Gh.method req)) <$> reqs
  = (λ step, (Gh.API +:+ step.1, step.2)) <$> steps.
Proof.
  induction 1 as [|req step reqs steps (token & _ & _ & Hreq) _ IH]; csimpl; [done|].
  rewrite IH. f_equal. by rewrite Hreq.
Qed.

(** X13: whatever lines 108 to 149 do, [main] never gets to them, and the
    script never ends with status 0.  Every run is stopped by an exception
    after at most five requests, which are the calls of steps 1 to 5 in
    their order; no request goes to the pull-request, search or issue
    endpoints, nothing is printed on standard output and no file is changed.
    A run that sends all five requests ends with [TypeError] at the test
    [code not in (200)] of line 104, after the branch was moved, unless the
    fifth request got no answer. *)
Theorem main_never_reaches_step_6 environ rest st :
  ∃ r st' reqs,
    Gh.main environ rest st = (Gh.Raised r, st') ∧
    (Gh.script environ rest st).1 = 1 ∧
    Gh.sent st' = Gh.sent st ++ reqs ∧
    (λ req, (Gh.url req, Gh.method req)) <$> reqs
      `prefix_of` (λ step, (Gh.API +:+ step.1, step.2)) <$> Gh.plan environ ∧
    (length reqs = 5%nat → r = Gh.Exn TypeError ∨ r = Gh.URLError) ∧
    Gh.texts st' = Gh.texts st ∧
    Gh.out st' = Gh.out st.
Proof.
  destruct (main_stopped environ rest st)
    as (r & st' & reqs & Hmain & Htexts & Hout & Hsent & Hplan & Hfive & Hexit & _).
  exists r, st', reqs. split_and!; try done.
  - unfold Gh.script. rewrite Hmain. destruct r as [[]|status| | |]; try done.
    simpl. by apply Hexit.
  - rewrite (requests_follow_steps _ _ _ Hplan), fmap_take. apply prefix_take.
Qed.

(** ** Without a token *)

(** X14: when neither [GH_TOKEN] nor [GITHUB_TOKEN] holds a non-empty
    value, [main] raises [SystemExit] with the message "GH_TOKEN is required"
    in its first call of [gh], before any request is built: the state is
    unchanged, and the script ends with status 1 and the message on standard
    error. *)
Theorem no_token_no_request environ rest st :
  (environ !! "GH_TOKEN" = None ∨ environ !! "GH_TOKEN" = Some "") →
  (environ !! "GITHUB_TOKEN" = None ∨ environ !! "GITHUB_TOKEN" = Some "") →
  Gh.main environ rest st
  = (Gh.Raised (Gh.Exn (SystemExit "GH_TOKEN is required")), st) ∧
  Gh.script environ rest st
  = (1, Gh.State (Gh.texts st) (Gh.github st) (Gh.sent st) (Gh.out st)
          (Gh.err st ++ ["GH_TOKEN is required"])).
Proof.
  intros Hgh Hgithub.
  assert (Gh.TOKEN environ = None ∨ Gh.TOKEN environ = Some "") as Htoken.
  { unfold Gh.TOKEN. destruct Hgh as [->| ->], Hgithub as [->| ->]; auto. }
  assert (Gh.main environ rest st
          = (Gh.Raised (Gh.Exn (SystemExit "GH_TOKEN is required")), st)) as Hmain.
  { apply wp_eq. unfold Gh.main. apply wp_bind, wp_gh; [done|].
    intros token rep srv Htok Hne. destruct Htoken; by simplify_eq. }
  split; [done|]. unfold Gh.script. by rewrite Hmain.
Qed.

(** ** A call that fails *)

(** X15: when the first call, for the base ref, is answered with a status
    other than 200, [main] prints "Failed to resolve base ref", the status
    and the body on standard error and calls [sys.exit(1)]: this one request
    is the only one sent. *)
Theorem base_ref_failure_stops_the_run environ rest st token code body srv :
  Gh.TOKEN environ = Some token → token ≠ "" →
  Gh.urlopen
    (Gh.build_request token (Gh.base_ref_path environ) "GET" None Gh.default_accept)
    (Gh.github st) = (Gh.Reply code body, srv) →
  code ≠ 200 →
  Gh.main environ rest st
  = (Gh.Raised (Gh.SysExit 1),
     Gh.State (Gh.texts st) srv
       (Gh.sent st
        ++ [Gh.build_request token (Gh.base_ref_path environ) "GET" None
              Gh.default_accept])
       (Gh.out st)
       (Gh.err st
        ++ ["Failed to resolve base ref " +:+ pretty code +:+ " " +:+ body])).
Proof.
  intros Htok Hne Hreply Hcode. apply wp_eq. unfold Gh.main.
  apply wp_bind, wp_gh; [intros []; by simplify_eq|].
  intros token' rep srv' Htok' _ Hrep. rewrite Htok in Htok'. injection Htok' as <-.
  rewrite Hreply in Hrep. injection Hrep as <- <-. cbn beta iota.
  apply wp_bind. rewrite (proj2 (Z.eqb_neq code 200) Hcode). cbn [negb].
  by apply wp_bind, wp_print_err, wp_sys_exit.
Qed.

(** X16: a failed creation of the branch is let through exactly when the
    body of the answer holds "Reference already exists".  After a base ref
    resolved to [base_sha] and an answer to the creation with a status other
    than 200 and 201: without the phrase, [main] prints "Create ref failed"
    and calls [sys.exit(1)] with two requests sent; with the phrase, it goes
    on and sends the tree request. *)
Theorem existing_branch_is_tolerated environ rest st token body1 srv1 d d'
    base_sha code2 body2 srv2 :
  let req1 := Gh.build_request token (Gh.base_ref_path environ) "GET" None
                Gh.default_accept in
  let req2 := Gh.build_request token (Gh.refs_path environ) "POST"
                (Some (YMap [(YStr "ref", YStr ("refs/heads/" +:+ Gh.BRANCH environ));
                             (YStr "sha", base_sha)]))
                Gh.default_accept in
  let req3 := Gh.build_request token (Gh.trees_path environ) "POST"
                (Some (YMap [(YStr "base_tree", base_sha);
                             (YStr "tree",
                              YList (Gh.tree_items Gh.FILES (Gh.texts st)))]))
                Gh.default_accept in
  Gh.TOKEN environ = Some token → token ≠ "" →
  Gh.urlopen req1 (Gh.github st) = (Gh.Reply 200 body1, srv1) →
  Gh.json_loads body1 = Some (YMap d) →
  dict_get d "object" = Some (YMap d') →
  dict_get d' "sha" = Some base_sha →
  Gh.urlopen req2 srv1 = (Gh.Reply code2 body2, srv2) →
  code2 ≠ 200 → code2 ≠ 201 →
  (Gh.contains body2 "Reference already exists" = false →
   Gh.main environ rest st
   = (Gh.Raised (Gh.SysExit 1),
      Gh.State (Gh.texts st) srv2 ((Gh.sent st ++ [req1]) ++ [req2]) (Gh.out st)
        (Gh.err st ++ ["Create ref failed " +:+ pretty code2 +:+ " " +:+ body2]))) ∧
  (Gh.contains body2 "Reference already exists" = true →
   ∃ later,
     Gh.sent (Gh.main environ rest st).2
     = (((Gh.sent st ++ [req1]) ++ [req2]) ++ [req3]) ++ later).
Proof.
  intros req1 req2 req3 Htok Hne Hreply1 Hloads Hobject Hsha Hreply2 Hc200 Hc201.
  subst req1 req2 req3.
  assert (negb ((code2 =? 200) || (code2 =? 201)) = true) as Hcode2.
  { by rewrite (proj2 (Z.eqb_neq code2 200)), (proj2 (Z.eqb_neq code2 201)). }
  split.
  - intros Hphrase. apply wp_eq. unfold Gh.main.
    apply wp_bind, wp_gh; [intros []; by simplify_eq|].
    intros token' rep srv' Htok' _ Hrep. rewrite Htok in Htok'. injection Htok' as <-.
    rewrite Hreply1 in Hrep. injection Hrep as <- <-.
    cbn beta iota. apply wp_bind. cbn [Z.eqb Pos.eqb negb]. apply wp_ret.
    cbn beta iota. apply wp_bind, wp_bind, (wp_loads_ok _ _ _ _ Hloads).
    apply wp_bind, (wp_subscript_ok _ _ _ _ _ Hobject), (wp_subscript_ok _ _ _ _ _ Hsha).
    cbn beta iota. apply wp_bind, wp_gh; [intros []; by simplify_eq|].
    intros token' rep srv' Htok' _ Hrep. rewrite Htok in Htok'. injection Htok' as <-.
    cbn [Gh.github] in Hrep. rewrite Hreply2 in Hrep. injection Hrep as <- <-.
    cbn beta iota. rewrite Hcode2, Hphrase.
    by apply wp_bind, wp_bind, wp_print_err, wp_sys_exit.
  - intros Hphrase.
    enough (Gh.wp (Gh.main environ rest)
              (λ _ st',
                 ∃ later,
                   Gh.sent st'
                   = (((Gh.sent st
                        ++ [Gh.build_request token (Gh.base_ref_path environ) "GET"
                              None Gh.default_accept])
                       ++ [Gh.build_request token (Gh.refs_path environ) "POST"
                             (Some (YMap [(YStr "ref",
                                           YStr ("refs/heads/" +:+ Gh.BRANCH environ));
                                          (YStr "sha", base_sha)]))
                             Gh.default_accept])
                      ++ [Gh.build_request token (Gh.trees_path environ) "POST"
                            (Some (YMap [(YStr "base_tree", base_sha);
                                         (YStr "tree",
                                          YList (Gh.tree_items Gh.FILES
                                                   (Gh.texts st)))]))
                            Gh.default_accept])
                     ++ later) st) as Hwp by exact Hwp.
    unfold Gh.main.
    apply wp_bind, wp_gh; [intros []; by simplify_eq|].
    intros token' rep srv' Htok' _ Hrep. rewrite Htok in Htok'. injection Htok' as <-.
    rewrite Hreply1 in Hrep. injection Hrep as <- <-.
    cbn beta iota. apply wp_bind. cbn [Z.eqb Pos.eqb negb]. apply wp_ret.
    cbn beta iota. apply wp_bind, wp_bind, (wp_loads_ok _ _ _ _ Hloads).
    apply wp_bind, (wp_subscript_ok _ _ _ _ _ Hobject), (wp_subscript_ok _ _ _ _ _ Hsha).
    cbn beta iota. apply wp_bind, wp_gh; [intros []; by simplify_eq|].
    intros token' rep srv' Htok' _ Hrep. rewrite Htok in Htok'. injection Htok' as <-.
    cbn [Gh.github] in Hrep. rewrite Hreply2 in Hrep. injection Hrep as <- <-.
    cbn beta iota. rewrite Hcode2, Hphrase.
    apply wp_bind, wp_ret. cbn beta iota.
    apply wp_bind, wp_collect_tree_items. cbn [Gh.texts].
    apply wp_bind, wp_gh; [intros []; by simplify_eq|].
    intros token' rep srv' Htok' _ Hrep. rewrite Htok in Htok'. injection Htok' as <-.
    clear Hrep. destruct rep as [code3 body3|].
    2: { eexists. cbn [Gh.sent]. symmetry. apply app_nil_r. }
    repeat lazymatch goal with
           | |- Gh.wp _ _ _ => wp_step
           end.
    all: cbn [Gh.sent]; eexists;
      once first [symmetry; apply app_nil_r
                 |reflexivity
                 |symmetry; apply (assoc_L (++))].
Qed.

(** ** What is sent *)

(** X17: the third request of a run, when there is one, is the creation of
    the tree, and its tree lists one blob (mode 100644, with the text of the
    file as content) for each path of [FILES] at which a file exists when
    the run starts, and nothing else: files that are missing are skipped and
    no file outside [FILES] is committed. *)
Theorem tree_request_lists_existing_files environ rest st req :
  Gh.sent (Gh.main environ rest st).2 !! (length (Gh.sent st) + 2)%nat = Some req →
  ∃ base_sha items,
    Gh.data req
    = Some (YMap [(YStr "base_tree", base_sha); (YStr "tree", YList items)]) ∧
    ∀ item,
      item ∈ items ↔
      ∃ rel content,
        item = Gh.tree_item rel content ∧ rel ∈ Gh.FILES ∧
        Gh.texts st !! rel = Some content.
Proof.
  destruct (main_stopped environ rest st)
    as (r & st' & reqs & Hmain & _ & _ & Hsent & _ & _ & _ & Htree).
  rewrite Hmain. cbn [snd]. rewrite Hsent, lookup_app_r by lia.
  replace (length (Gh.sent st) + 2 - length (Gh.sent st))%nat with 2%nat by lia.
  intros [base_sha Hdata]%Htree. exists base_sha, (Gh.tree_items Gh.FILES (Gh.texts st)).
  split; [done|]. apply elem_of_tree_items.
Qed.

(** X18: every request of a run is addressed to the API, carries the token
    of the environment as a bearer token and the default [Accept] header, and
    has a [Content-Type] of JSON exactly when it has a body. *)
Theorem requests_carry_the_token environ rest st :
  ∃ reqs,
    Gh.sent (Gh.main environ rest st).2 = Gh.sent st ++ reqs ∧
    Forall (λ req,
              ∃ token path,
                Gh.TOKEN environ = Some token ∧ token ≠ "" ∧
                Gh.url req = Gh.API +:+ path ∧
                Gh.headers req
                = [("Authorization", "Bearer " +:+ token);
                   ("Accept", Gh.default_accept)]
                  ++ match Gh.data req with
                     | Some _ => [("Content-Type", "application/json")]
                     | None => []
                     end) reqs.
Proof.
  destruct (main_stopped environ rest st)
    as (r & st' & reqs & Hmain & _ & _ & Hsent & Hplan & _).
  exists reqs. rewrite Hmain. split; [done|].
  eapply Forall2_Forall_l; [exact Hplan|]. apply Forall_true.
  intros step req (token & Htok & Hne & Hreq).
  exists token, step.1. repeat (split; [done|]). by rewrite Hreq.
Qed.

End gh_run.

(** ** Runs against the counting server *)

Example run_with_every_call_answered :
  let run := Gh.script Gh.environ0 (λ _ _ _, mret ()) Gh.state0 in
  run.1 = 1 ∧
  Gh.github run.2 = 5%nat ∧
  Gh.method <$> Gh.sent run.2 = ["GET"; "POST"; "POST"; "POST"; "PATCH"] ∧
  Gh.out run.2 = [] ∧
  Gh.err run.2 = ["Traceback (most recent call last):"].
Proof. by vm_compute. Qed.

Lemma no_token_no_request_witness :
  Gh.main ∅ (λ _ _ _, mret ()) Gh.state0
  = (Gh.Raised (Gh.Exn (SystemExit "GH_TOKEN is required")), Gh.state0).
Proof.
  apply (no_token_no_request ∅ (λ _ _ _, mret ()) Gh.state0); by left.
Defined.

Lemma base_ref_failure_stops_the_run_witness :
  Gh.main Gh.environ0 (λ _ _ _, mret ()) Gh.state1
  = (Gh.Raised (Gh.SysExit 1),
     @Gh.State Gh.counting_platform (Gh.texts Gh.state1) 2%nat
       (Gh.sent Gh.state1
        ++ [Gh.build_request "s3cr3t" (Gh.base_ref_path Gh.environ0) "GET" None
              Gh.default_accept])
       (Gh.out Gh.state1)
       (Gh.err Gh.state1
        ++ ["Failed to resolve base ref " +:+ pretty 422 +:+ " "
            +:+ "Reference already exists"])).
Proof.
  apply (base_ref_failure_stops_the_run Gh.environ0 (λ _ _ _, mret ())
           Gh.state1 "s3cr3t" 422 "Reference already exists" 2%nat).
  - reflexivity.
  - discriminate.
  - reflexivity.
  - discriminate.
Defined.

Lemma existing_branch_is_tolerated_witness :
  ∃ later : list Gh.request,
    length (Gh.sent (Gh.main Gh.environ0 (λ _ _ _, mret ()) Gh.state0).2)
    = (3 + length later)%nat.
Proof.
  destruct (existing_branch_is_tolerated Gh.environ0 (λ _ _ _, mret ()) Gh.state0
              "s3cr3t" "{}" 1%nat
              [(YStr "object", YMap [(YStr "sha", YStr "0a1b2c")]);
               (YStr "sha", YStr "3d4e5f")]
              [(YStr "sha", YStr "0a1b2c")] (YStr "0a1b2c")
              422 "Reference already exists" 2%nat)
    as [_ Hgoes_on]; try reflexivity; try discriminate.
  destruct (Hgoes_on eq_refl) as [later Hsent].
  exists later. rewrite Hsent. rewrite !length_app. simpl. lia.
Defined.

Lemma tree_request_lists_existing_files_witness :
  ∃ base_sha items,
    Some (YMap [(YStr "base_tree", YStr "0a1b2c");
                (YStr "tree", YList [Gh.tree_item "apps/web/package.json" "{}"])])
    = Some (YMap [(YStr "base_tree", base_sha); (YStr "tree", YList items)]) ∧
    ∀ item,
      item ∈ items ↔
      ∃ rel content,
        item = Gh.tree_item rel content ∧ rel ∈ Gh.FILES ∧
        Gh.texts Gh.state0 !! rel = Some content.
Proof.
  apply (tree_request_lists_existing_files Gh.environ0 (λ _ _ _, mret ()) Gh.state0
           (Gh.build_request "s3cr3t" (Gh.trees_path Gh.environ0) "POST"
              (Some (YMap [(YStr "base_tree", YStr "0a1b2c");
                           (YStr "tree",
                            YList [Gh.tree_item "apps/web/package.json" "{}"])]))
              Gh.default_accept)).
  reflexivity.
Defined.
